(** * Node bootstrap configuration: a shallow embedding of server/context.go

    The development follows the Go source function by function.  Go strings
    are byte sequences and are modelled as [list ascii]; Go's fixed-width
    integers are modelled as [Z] with the wrap-around written out; a Go
    function returning [(T, error)] is modelled as returning a pair whose
    second component is [option error] ([None] is Go's [nil] error). *)

From Stdlib Require Import Ascii String ZArith Lia Bool Arith List.
Import ListNotations.

Set Implicit Arguments.

(** ** Go strings *)

Definition gostring := list ascii.

Declare Scope gostring_scope.
Delimit Scope gostring_scope with go.
Bind Scope gostring_scope with gostring.
#[warnings="-via-type-mismatch,-via-type-remapping"]
String Notation gostring string_of_list_byte list_byte_of_string
  (via string mapping [[nil] => EmptyString, [cons] => String]) : gostring_scope.
Open Scope gostring_scope.

Definition gostring_eqb (a b : gostring) : bool :=
  if list_eq_dec ascii_dec a b then true else false.

Module strings.

(** [strings.IndexByte]: index of the first occurrence of [c], [None] for
    Go's -1. *)
Fixpoint IndexByte (s : gostring) (c : ascii) : option nat :=
  match s with
  | [] => None
  | x :: s' =>
      if Ascii.eqb x c then Some 0
      else match IndexByte s' c with
           | Some m => Some (S m)
           | None => None
           end
  end.

(** [strings.Count] for a one-byte separator. *)
Fixpoint Count (s : gostring) (c : ascii) : nat :=
  match s with
  | [] => 0
  | x :: s' => if Ascii.eqb x c then S (Count s' c) else Count s' c
  end.

(** The loop of [strings.genSplit] with [sepSave = 0]:
<<
    for i < n { m := Index(s, sep); if m < 0 { break }
                a[i] = s[:m]; s = s[m+len(sep):]; i++ }
    a[i] = s
>>
    [n] counts the iterations still allowed. *)
Fixpoint genSplit (n : nat) (s : gostring) (sep : ascii) : list gostring :=
  match n with
  | 0 => [s]
  | S n' =>
      match IndexByte s sep with
      | None => [s]
      | Some m => firstn m s :: genSplit n' (skipn (m + 1) s) sep
      end
  end.

(** [strings.Split(s, sep)].  Both call sites of the program pass a one-byte
    separator (":" and ","), so [sep] is that byte; [genSplit] is entered
    with [n = Count(s, sep) + 1] and loops [n - 1] times. *)
Definition Split (s : gostring) (sep : ascii) : list gostring :=
  genSplit (Count s sep) s sep.

(** [strings.HasPrefix]:
    [len(s) >= len(prefix) && s[0:len(prefix)] == prefix]. *)
Definition HasPrefix (s prefix : gostring) : bool :=
  (length prefix <=? length s) &&
  gostring_eqb (firstn (length prefix) s) prefix.

(** [strings.Join] with a one-byte separator; used in statements only. *)
Fixpoint Join (a : list gostring) (sep : ascii) : gostring :=
  match a with
  | [] => []
  | [p] => p
  | p :: ps => p ++ sep :: Join ps sep
  end.

End strings.

(** ** proto.Attributes *)

Module proto.

(** Modelled from the spec: the message type [proto.Attributes] is declared
    in the proto package, whose declaration is not among the sources; the
    capability set is "an ordered sequence of non-empty string tokens,
    order-preserving, duplicates permitted", held in the one field [Attrs]
    that [parseAttributes] fills. *)
Record Attributes : Type := { Attrs : list gostring }.

End proto.

(** [parseAttributes]: the [for ... range strings.Split(attrsStr, ":")] loop
    appends every piece of non-zero length to [filtered]. *)
Definition parseAttributes (attrsStr : gostring) : proto.Attributes :=
  let filtered :=
    fold_left
      (fun (filtered : list gostring) (attr : gostring) =>
         if negb (length attr =? 0) then filtered ++ [attr] else filtered)
      (strings.Split attrsStr ":"%char) [] in
  {| proto.Attrs := filtered |}.

(** ** strconv.ParseUint *)

Module strconv.

Local Open Scope Z_scope.

Inductive NumError : Type := ErrSyntax | ErrRange | ErrBase.

(** A [uint64] result of an arithmetic operation. *)
Definition uint64 (z : Z) : Z := z mod 2 ^ 64.

Definition byte_val (c : ascii) : Z := Z.of_N (N_of_ascii c).

(** The digit value of a byte, the [switch] of the parsing loop. *)
Definition digit (d : Z) : option Z :=
  if (48 <=? d) && (d <=? 57) then Some (d - 48)             (* '0'..'9' *)
  else if (97 <=? d) && (d <=? 122) then Some (d - 97 + 10)  (* 'a'..'z' *)
  else if (65 <=? d) && (d <=? 90) then Some (d - 65 + 10)   (* 'A'..'Z' *)
  else None.

(** The loop over the bytes of [s]; [n] is the [uint64] accumulator. *)
Fixpoint ParseUint_loop (s : gostring) (base cutoff maxVal n : Z)
  : Z * option NumError :=
  match s with
  | [] => (n, None)
  | d :: s' =>
      match digit (byte_val d) with
      | None => (0, Some ErrSyntax)
      | Some v =>
          if base <=? v then (0, Some ErrSyntax)
          else if cutoff <=? n then (2 ^ 64 - 1, Some ErrRange)   (* n*base overflows *)
          else
            let n := uint64 (n * base) in
            let n1 := uint64 (n + v) in
            if (n1 <? n) || (maxVal <? n1) then (2 ^ 64 - 1, Some ErrRange)
            else ParseUint_loop s' base cutoff maxVal n1
      end
  end.

(** [strconv.ParseUint(s, base, bitSize)] for an explicit base between 2 and
    36.  Base 0 (prefix detection) and invalid bases are not reached by the
    program, whose only call passes base 10; they are reported as [ErrBase]. *)
Definition ParseUint (s : gostring) (base bitSize : Z) : Z * option NumError :=
  if (length s <? 1)%nat then (0, Some ErrSyntax)
  else if (2 <=? base) && (base <=? 36) then
    let cutoff := (2 ^ 64 - 1) / base + 1 in
    let maxVal := uint64 (uint64 (2 ^ bitSize) - 1) in
    ParseUint_loop s base cutoff maxVal 0
  else (0, Some ErrBase).

(** The value of a decimal numeral, for statements: [None] when [s] is empty
    or has a byte that is not a decimal digit. *)
Definition is_digit (d : ascii) : bool :=
  (48 <=? byte_val d) && (byte_val d <=? 57).

Fixpoint decimal_loop (s : gostring) (n : Z) : option Z :=
  match s with
  | [] => Some n
  | d :: s' =>
      if is_digit d then decimal_loop s' (10 * n + (byte_val d - 48)) else None
  end.

Definition decimal_value (s : gostring) : option Z :=
  match s with
  | [] => None
  | _ :: _ => decimal_loop s 0
  end.

End strconv.

(** The conversion [int64(size)] of a [uint64]: the same 64 bits read in
    two's complement. *)
Definition int64_of_uint64 (u : Z) : Z :=
  (if u <? 2 ^ 63 then u else u - 2 ^ 64)%Z.

(** ** regexp: leftmost-first matching with submatches

    Go's [regexp] returns, among the matches that start leftmost, "the one
    that a backtracking search would have found first".  The matcher below is
    that backtracking search, written with continuations over the syntax of
    the pattern.  It works on bytes; the engine of the library works on UTF-8
    runes, which makes no difference for the pattern of the program: its
    only literal bytes, '=' and ',', are ASCII and never occur inside a
    multi-byte rune. *)

Module regexp.

Inductive Regexp : Type :=
| Lit (c : ascii)                   (* the byte c *)
| NotLit (c : ascii)                (* [^c] *)
| EndText                           (* $ without the m flag *)
| Cat (r1 r2 : Regexp)              (* r1 r2 *)
| Alt (r1 r2 : Regexp)              (* r1|r2, r1 preferred *)
| Plus (r : Regexp)                 (* r+, greedy *)
| Capture (n : nat) (r : Regexp).   (* the n-th parenthesised group *)

Fixpoint NumSubexp (r : Regexp) : nat :=
  match r with
  | Lit _ | NotLit _ | EndText => 0
  | Cat r1 r2 | Alt r1 r2 => NumSubexp r1 + NumSubexp r2
  | Plus r1 => NumSubexp r1
  | Capture _ r1 => S (NumSubexp r1)
  end.

(** The text still to be read and the byte offset reached. *)
Record input : Type := { rest : gostring; pos : nat }.

(** Submatch positions: entry 0 is the whole match, entry [n] the [n]-th
    group; [None] is the library's -1 for a group that took no part. *)
Definition caps : Type := list (option (nat * nat)).

Definition cont : Type := input -> caps -> option caps.

Fixpoint set_nth {A : Type} (n : nat) (v : A) (l : list A) : list A :=
  match l, n with
  | [], _ => []
  | _ :: t, 0 => v :: t
  | x :: t, S n' => x :: set_nth n' v t
  end.

Definition orelse (a b : option caps) : option caps :=
  match a with
  | Some x => Some x
  | None => b
  end.

(** One byte satisfying [p]. *)
Definition step (p : ascii -> bool) (k : cont) : cont :=
  fun i c =>
    match rest i with
    | x :: r => if p x then k {| rest := r; pos := S (pos i) |} c else None
    | [] => None
    end.

(** Greedy iteration of [m], at least once: after each round try another
    round first and fall back to the continuation.  A round that consumed
    nothing ends the iteration; [n] bounds the rounds by the length of the
    text. *)
Fixpoint plus (m : cont -> cont) (n : nat) (k : cont) (i : input) (c : caps)
  : option caps :=
  m (fun i' c' =>
       match n with
       | 0 => k i' c'
       | S n' =>
           if pos i' =? pos i then k i' c'
           else orelse (plus m n' k i' c') (k i' c')
       end) i c.

Fixpoint backtrack (r : Regexp) (k : cont) : cont :=
  match r with
  | Lit a => step (fun x => Ascii.eqb x a) k
  | NotLit a => step (fun x => negb (Ascii.eqb x a)) k
  | EndText => fun i c => match rest i with [] => k i c | _ :: _ => None end
  | Cat r1 r2 => backtrack r1 (backtrack r2 k)
  | Alt r1 r2 => fun i c => orelse (backtrack r1 k i c) (backtrack r2 k i c)
  | Plus r1 => fun i c => plus (backtrack r1) (length (rest i)) k i c
  | Capture n r1 =>
      fun i c =>
        backtrack r1 (fun i' c' => k i' (set_nth n (Some (pos i, pos i')) c')) i c
  end.

(** A match that starts exactly at [i]. *)
Definition matchAt (re : Regexp) (i : input) : option caps :=
  backtrack re (fun i' c => Some (set_nth 0 (Some (pos i, pos i')) c))
            i (repeat None (1 + NumSubexp re)).

(** The leftmost match starting at [pos] or later. *)
Fixpoint search (re : Regexp) (rest : gostring) (pos : nat) : option caps :=
  match matchAt re {| rest := rest; pos := pos |} with
  | Some c => Some c
  | None =>
      match rest with
      | [] => None
      | _ :: rest' => search re rest' (S pos)
      end
  end.

(** [re.doExecute(..., s, pos, ...)]. *)
Definition doExecute (re : Regexp) (s : gostring) (pos : nat) : option caps :=
  search re (skipn pos s) pos.

Definition option_nat_eqb (a b : option nat) : bool :=
  match a, b with
  | Some x, Some y => x =? y
  | None, None => true
  | _, _ => false
  end.

(** The loop of [re.allMatches]:
<<
    for pos, i, prevMatchEnd := 0, 0, -1; i < n && pos <= end; {
        matches := re.doExecute(nil, b, s, pos, re.prog.NumCap)
        if len(matches) == 0 { break }
        accept := true
        if matches[1] == pos {            // an empty match
            if matches[0] == prevMatchEnd { accept = false }
            if width > 0 { pos += width } else { pos = end + 1 }
        } else { pos = matches[1] }
        prevMatchEnd = matches[1]
        if accept { deliver(re.pad(matches)); i++ }
    }
>>
    [width] is the width of the rune at [pos], one byte here, and 0 at the
    end of the text.  [pos] grows in every round, so [fuel] rounds with
    [fuel > end + 1 - pos] are as good as any larger number. *)
Fixpoint allMatches_loop (fuel : nat) (re : Regexp) (s : gostring) (n : nat)
    (pos i : nat) (prevMatchEnd : option nat) : list caps :=
  match fuel with
  | 0 => []
  | S fuel' =>
      if (i <? n) && (pos <=? length s) then
        match doExecute re s pos with
        | None => []
        | Some matches =>
            match nth 0 matches None with
            | None => []
            | Some (m0, m1) =>
                let accept :=
                  negb ((m1 =? pos) && option_nat_eqb (Some m0) prevMatchEnd) in
                let pos' :=
                  if m1 =? pos
                  then (if pos <? length s then pos + 1 else length s + 1)
                  else m1 in
                if accept
                then matches
                       :: allMatches_loop fuel' re s n pos' (S i) (Some m1)
                else allMatches_loop fuel' re s n pos' i (Some m1)
            end
        end
      else []
  end.

Definition allMatches (re : Regexp) (s : gostring) (n : nat) : list caps :=
  allMatches_loop (length s + 2) re s n 0 0 None.

(** The slice [s[lo:hi]]. *)
Definition slice (s : gostring) (lo hi : nat) : gostring :=
  firstn (hi - lo) (skipn lo s).

(** [re.FindAllStringSubmatch(s, n)]: a negative [n] stands for
    [len(s) + 1]; each match is delivered as the strings of its submatches,
    the empty string for a group that took no part. *)
Definition FindAllStringSubmatch (re : Regexp) (s : gostring) (n : Z)
  : list (list gostring) :=
  let n := if (n <? 0)%Z then length s + 1 else Z.to_nat n in
  map (fun matches : caps =>
         map (fun m => match m with
                       | Some (lo, hi) => slice s lo hi
                       | None => []
                       end) matches)
      (allMatches re s n).

End regexp.

(** The pattern [([^=]+)=([^,]+)(,|$)] of [Context.Init]. *)
Definition storesRE : regexp.Regexp :=
  regexp.Cat (regexp.Capture 1 (regexp.Plus (regexp.NotLit "=")))
    (regexp.Cat (regexp.Lit "=")
       (regexp.Cat (regexp.Capture 2 (regexp.Plus (regexp.NotLit ",")))
          (regexp.Capture 3 (regexp.Alt (regexp.Lit ",") regexp.EndText)))).

(** ** Storage engines *)

Module engine.

(** Modelled from the spec: the engine implementations live in the
    storage/engine package, which is not among the sources; this layer "only
    decides which to construct and with what parameters".  An engine handle
    is therefore the record of its construction: an in-memory engine "with
    that byte capacity and the parsed attributes", or a disk-backed engine
    "with the parsed attributes, that path, and the shared cache-size
    budget".  [maxBytes] and [cacheSize] are [int64]. *)
Inductive Engine : Type :=
| InMem (attrs : proto.Attributes) (maxBytes : Z)
| RocksDB (attrs : proto.Attributes) (dir : gostring) (cacheSize : Z).

Definition NewInMem (attrs : proto.Attributes) (maxBytes : Z) : Engine :=
  InMem attrs maxBytes.

Definition NewRocksDB (attrs : proto.Attributes) (dir : gostring)
    (cacheSize : Z) : Engine :=
  RocksDB attrs dir cacheSize.

Definition isInMem (e : Engine) : bool :=
  match e with InMem _ _ => true | RocksDB _ _ _ => false end.

Definition Attrs (e : Engine) : proto.Attributes :=
  match e with InMem a _ => a | RocksDB a _ _ => a end.

End engine.

(** ** Errors

    One constructor per place where the program makes an error value, the
    arguments being the values formatted into the message. *)
Inductive error : Type :=
| ErrInvalidEngines (stores : gostring)
    (* "invalid or empty engines specification %q, did you specify -stores?" *)
| ErrUnableToParseStore (store0 : gostring)
    (* "unable to parse attributes and path from store %q" *)
| ErrUnableToInitEngine (store0 : gostring) (err : error)
    (* "unable to init engine for store %q: %s" *)
| ErrZeroCapacity
    (* "unable to initialize an in-memory store with capacity 0" *)
| ErrNoGossipAddresses
    (* "no gossip addresses found, did you specify -gossip?" *)
| ErrCollaborator (msg : gostring)
    (* the error with message msg that gossip.NewResolver or
       client.NewHTTPClient returned, passed on unchanged *)
| PanicIndexOutOfRange.
    (* the run-time panic of an index expression out of range *)

(** A configuration error in the sense of the specification: any error value
    the layer itself makes. *)
Definition isConfigurationError (e : error) : bool :=
  match e with
  | ErrInvalidEngines _ | ErrUnableToParseStore _ | ErrUnableToInitEngine _ _
  | ErrZeroCapacity | ErrNoGossipAddresses => true
  | ErrCollaborator _ | PanicIndexOutOfRange => false
  end.

(** A small world to run the program in: a resolver is the address it was
    made from, an address being well formed when it has a ':'; the n-th
    attempt to build the HTTP client succeeds from the third on. *)
Module sample.

Definition Resolver : Type := gostring.

Definition NewResolver (address : gostring) : Resolver + gostring :=
  match strings.IndexByte address ":" with
  | Some _ => inl address
  | None => inr address
  end.

Definition localHost : gostring := "127.0.0.1".

Definition Client : Type := gostring.

Definition NewHTTPClient (attempt : nat) (certs : gostring)
  : option Client * option gostring :=
  if attempt <? 2 then (None, Some certs) else (Some certs, None).

End sample.

Module util.

(** Modelled from the spec: [util.EnsureHost] is defined in the util
    package, which is not among the sources.  It turns the bind address into one with "a host component ...
    present even if only a port was configured", and is to "default to the
    local/loopback host when no host is given": an address that starts at
    the ':' of its port gets [localHost] in front, any other address is kept
    as it is. *)
Definition EnsureHost (localHost addr : gostring) : gostring :=
  match addr with
  | ":"%char :: _ => localHost ++ addr
  | _ => addr
  end.

End util.

(** ** The Context and its operations *)

Section Server.

(** The collaborators of the layer, whose errors are given by their
    message.  [gossip.NewResolver] gives a resolver or an error;
    [client.NewHTTPClient] gives a client pointer, possibly nil, and an
    error, possibly nil, and depends on the files found in the certificate
    directory when it is called, so its outcome is indexed by the number of
    construction attempts made before; [EnsureHost] is [util.EnsureHost]. *)
Variable Resolver : Type.
Variable NewResolver : gostring -> Resolver + gostring.
Variable EnsureHost : gostring -> gostring.
Variable Client : Type.
Variable NewHTTPClient : nat -> gostring -> option Client * option gostring.

(** Durations are [int64] nanoseconds.  The mutex [httpClientMu] is taken on
    entry of [GetHTTPClient] and released by the deferred [Unlock] on every
    way out; between two calls of a sequential run it is free, and it has no
    field here. *)
Record Context : Type := {
  Addr : gostring;
  Certs : gostring;
  Stores : gostring;
  Attrs : gostring;
  MaxOffset : Z;
  GossipBootstrap : gostring;
  GossipInterval : Z;
  Linearizable : bool;
  CacheSize : Z;
  Engines : list engine.Engine;
  NodeAttributes : proto.Attributes;
  GossipBootstrapResolvers : list Resolver;
  ScanInterval : Z;
  httpClient : option Client
}.

Definition set_Engines (ctx : Context) (v : list engine.Engine) : Context :=
  {| Addr := Addr ctx; Certs := Certs ctx; Stores := Stores ctx;
     Attrs := Attrs ctx; MaxOffset := MaxOffset ctx;
     GossipBootstrap := GossipBootstrap ctx;
     GossipInterval := GossipInterval ctx; Linearizable := Linearizable ctx;
     CacheSize := CacheSize ctx; Engines := v;
     NodeAttributes := NodeAttributes ctx;
     GossipBootstrapResolvers := GossipBootstrapResolvers ctx;
     ScanInterval := ScanInterval ctx; httpClient := httpClient ctx |}.

Definition set_NodeAttributes (ctx : Context) (v : proto.Attributes)
  : Context :=
  {| Addr := Addr ctx; Certs := Certs ctx; Stores := Stores ctx;
     Attrs := Attrs ctx; MaxOffset := MaxOffset ctx;
     GossipBootstrap := GossipBootstrap ctx;
     GossipInterval := GossipInterval ctx; Linearizable := Linearizable ctx;
     CacheSize := CacheSize ctx; Engines := Engines ctx;
     NodeAttributes := v;
     GossipBootstrapResolvers := GossipBootstrapResolvers ctx;
     ScanInterval := ScanInterval ctx; httpClient := httpClient ctx |}.

Definition set_GossipBootstrapResolvers (ctx : Context) (v : list Resolver)
  : Context :=
  {| Addr := Addr ctx; Certs := Certs ctx; Stores := Stores ctx;
     Attrs := Attrs ctx; MaxOffset := MaxOffset ctx;
     GossipBootstrap := GossipBootstrap ctx;
     GossipInterval := GossipInterval ctx; Linearizable := Linearizable ctx;
     CacheSize := CacheSize ctx; Engines := Engines ctx;
     NodeAttributes := NodeAttributes ctx;
     GossipBootstrapResolvers := v;
     ScanInterval := ScanInterval ctx; httpClient := httpClient ctx |}.

Definition set_httpClient (ctx : Context) (v : option Client) : Context :=
  {| Addr := Addr ctx; Certs := Certs ctx; Stores := Stores ctx;
     Attrs := Attrs ctx; MaxOffset := MaxOffset ctx;
     GossipBootstrap := GossipBootstrap ctx;
     GossipInterval := GossipInterval ctx; Linearizable := Linearizable ctx;
     CacheSize := CacheSize ctx; Engines := Engines ctx;
     NodeAttributes := NodeAttributes ctx;
     GossipBootstrapResolvers := GossipBootstrapResolvers ctx;
     ScanInterval := ScanInterval ctx; httpClient := v |}.

(** Context defaults. *)
Definition defaultAddr : gostring := ":8080".
Definition defaultCertsDir : gostring := "certs".
Definition defaultMaxOffset : Z := 250 * 1000000.
Definition defaultGossipInterval : Z := 2 * 1000000000.
Definition defaultCacheSize : Z := Z.shiftl 1 30.
Definition defaultScanInterval : Z := 10 * (60 * 1000000000).

(** [NewContext]: the fields not listed have their zero value. *)
Definition NewContext : Context :=
  {| Addr := defaultAddr; Certs := defaultCertsDir; Stores := [];
     Attrs := []; MaxOffset := defaultMaxOffset; GossipBootstrap := [];
     GossipInterval := defaultGossipInterval; Linearizable := false;
     CacheSize := defaultCacheSize; Engines := [];
     NodeAttributes := {| proto.Attrs := [] |};
     GossipBootstrapResolvers := [];
     ScanInterval := defaultScanInterval; httpClient := None |}.

(** The context of [NewContext] after the flags -addr, -stores, -attrs and
    -gossip were given, the way "server/cli".InitFlags fills it; used to
    state examples. *)
Definition flagsContext (addr stores attrs gossip : gostring) : Context :=
  {| Addr := addr; Certs := defaultCertsDir; Stores := stores;
     Attrs := attrs; MaxOffset := defaultMaxOffset; GossipBootstrap := gossip;
     GossipInterval := defaultGossipInterval; Linearizable := false;
     CacheSize := defaultCacheSize; Engines := [];
     NodeAttributes := {| proto.Attrs := [] |};
     GossipBootstrapResolvers := [];
     ScanInterval := defaultScanInterval; httpClient := None |}.

(** [initEngine]: every [return] gives an engine with a nil error or a nil
    engine with an error, hence the sum. *)
Definition initEngine (ctx : Context) (attrsStr path : gostring)
  : engine.Engine + error :=
  let attrs := parseAttributes attrsStr in
  match strconv.ParseUint path 10 64 with
  | (size, None) =>
      if (size =? 0)%Z then inr ErrZeroCapacity
      else inl (engine.NewInMem attrs (int64_of_uint64 size))
  | (_, Some _) => inl (engine.NewRocksDB attrs path (CacheSize ctx))
  end.

(** The [for ... range addresses] loop of [parseGossipBootstrapResolvers];
    [bootstrapResolvers] is the slice built so far. *)
Fixpoint parseGossipBootstrapResolvers_loop (ctx : Context)
    (addresses : list gostring) (bootstrapResolvers : list Resolver)
  : list Resolver * option error :=
  match addresses with
  | [] => (bootstrapResolvers, None)
  | address :: addresses' =>
      if length address =? 0
      then parseGossipBootstrapResolvers_loop ctx addresses' bootstrapResolvers
      else
        let address :=
          if strings.HasPrefix address "self://"
          then EnsureHost (Addr ctx)
          else address in
        match NewResolver address with
        | inr err => ([], Some (ErrCollaborator err))
        | inl resolver =>
            parseGossipBootstrapResolvers_loop ctx addresses'
              (bootstrapResolvers ++ [resolver])
        end
  end.

Definition parseGossipBootstrapResolvers (ctx : Context)
  : list Resolver * option error :=
  parseGossipBootstrapResolvers_loop ctx
    (strings.Split (GossipBootstrap ctx) ","%char) [].

(** The [for _, store := range storeSpecs] loop of [Init].  An index
    expression on [store] that is out of range panics. *)
Fixpoint Init_stores (ctx : Context) (storeSpecs : list (list gostring))
  : Context * option error :=
  match storeSpecs with
  | [] => (ctx, None)
  | store :: storeSpecs' =>
      if negb (length store =? 4) then
        match nth_error store 0 with
        | Some store0 => (ctx, Some (ErrUnableToParseStore store0))
        | None => (ctx, Some PanicIndexOutOfRange)
        end
      else
        match nth_error store 0, nth_error store 1, nth_error store 2 with
        | Some store0, Some store1, Some store2 =>
            match initEngine ctx store1 store2 with
            | inr err => (ctx, Some (ErrUnableToInitEngine store0 err))
            | inl engine =>
                Init_stores (set_Engines ctx (Engines ctx ++ [engine]))
                            storeSpecs'
            end
        | _, _, _ => (ctx, Some PanicIndexOutOfRange)
        end
  end.

(** The store-spec phase of [Init]: from the match of the pattern to the
    end of the loop over the matches. *)
Definition Init_storeSpecs (ctx : Context) : Context * option error :=
  let storeSpecs := regexp.FindAllStringSubmatch storesRE (Stores ctx) (-1) in
  if length storeSpecs =? 0 then (ctx, Some (ErrInvalidEngines (Stores ctx)))
  else Init_stores (set_Engines ctx []) storeSpecs.

(** [Context.Init]; the call of [log.Infof] writes a log line and is left
    out. *)
Definition Init (ctx : Context) : Context * option error :=
  match Init_storeSpecs ctx with
  | (ctx, Some err) => (ctx, Some err)
  | (ctx, None) =>
      let ctx := set_NodeAttributes ctx (parseAttributes (Attrs ctx)) in
      match parseGossipBootstrapResolvers ctx with
      | (_, Some err) => (ctx, Some err)
      | (resolvers, None) =>
          if length resolvers =? 0 then (ctx, Some ErrNoGossipAddresses)
          else (set_GossipBootstrapResolvers ctx resolvers, None)
      end
  end.

(** [Context.GetHTTPClient] in a world where [w] constructions of a client
    were attempted so far; returns the pair of results, the context and the
    number of attempts afterwards. *)
Definition GetHTTPClient (ctx : Context) (w : nat)
  : (option Client * option error) * Context * nat :=
  match httpClient ctx with
  | None =>
      let '(client, err) := NewHTTPClient w (Certs ctx) in
      let ctx := set_httpClient ctx client in
      ((httpClient ctx, option_map ErrCollaborator err), ctx, S w)
  | Some _ => ((httpClient ctx, None), ctx, w)
  end.

(** ** Definitions for the statements *)

(** [reads i i']: from [i] the matcher read some bytes and is at [i']. *)
Definition reads (i i' : regexp.input) : Prop :=
  exists pre : gostring,
    regexp.rest i = pre ++ regexp.rest i' /\
    regexp.pos i' = regexp.pos i + length pre.

(** A matcher is forward when its result is the result of its continuation
    at a later input, with a submatch table of the same size. *)
Definition forward (m : regexp.cont -> regexp.cont) : Prop :=
  forall (k : regexp.cont) i c x,
    m k i c = Some x ->
    exists i' c', reads i i' /\ length c' = length c /\ k i' c' = Some x.

(** The longest prefix of [s] whose bytes satisfy [p], and what follows. *)
Fixpoint span (p : ascii -> bool) (s : gostring) : gostring * gostring :=
  match s with
  | [] => ([], [])
  | x :: s' =>
      if p x then let (a, b) := span p s' in (x :: a, b) else ([], s)
  end.

Definition notByte (c x : ascii) : bool := negb (Ascii.eqb x c).

(** What the pattern of [Init] matches at the head of [rest], read off the
    pattern: the bytes before the first '=', at least one; the '='; the
    bytes before the next ',', at least one; that ',' when there is one. *)
Definition storeSpec_at (rest : gostring) (pos : nat) : option regexp.caps :=
  match span (notByte "=") rest with
  | ((_ :: _) as a, _ :: r2) =>
      match span (notByte ",") r2 with
      | ((_ :: _) as l, r3) =>
          let e1 := pos + length a in
          let e2 := S e1 + length l in
          let e := match r3 with [] => e2 | _ :: _ => S e2 end in
          Some [Some (pos, e); Some (pos, e1); Some (S e1, e2); Some (e2, e)]
      | ([], _) => None
      end
  | (_, _) => None
  end.

(** One store specification as the pattern delimits it: attributes without
    '=', a location without ',', and the terminator, a ',' or nothing. *)
Definition isStoreSpec (attrs location term : gostring) : Prop :=
  attrs <> [] /\ ~ In "="%char attrs /\
  location <> [] /\ ~ In ","%char location /\
  (term = "," \/ term = []).

(** [s] has a match of the pattern somewhere: a store specification followed
    by a ',' or by the end of [s]. *)
Definition hasStoreSpec (s : gostring) : Prop :=
  exists gap attrs location post,
    s = gap ++ attrs ++ "="%char :: location ++ post /\
    attrs <> [] /\ ~ In "="%char attrs /\
    location <> [] /\ ~ In ","%char location /\
    (post = [] \/ exists post', post = ","%char :: post').

(** [scanned s specs]: the matches [specs] lie in [s] from left to right
    without overlap, each after a gap of skipped text; the text after the
    last match has no match and is skipped too.  A match is the list of its
    four strings. *)
Inductive scanned : gostring -> list (list gostring) -> Prop :=
| scanned_rest (s : gostring) : ~ hasStoreSpec s -> scanned s []
| scanned_match (gap attrs location term s : gostring)
    (specs : list (list gostring)) :
    isStoreSpec attrs location term ->
    (term = [] -> s = []) ->
    scanned s specs ->
    scanned (gap ++ attrs ++ "="%char :: location ++ term ++ s)
            ([attrs ++ "="%char :: location ++ term; attrs; location; term]
               :: specs).

(** The address a token of the bootstrap list is resolved as. *)
Definition resolvedAddress (ctx : Context) (token : gostring) : gostring :=
  if strings.HasPrefix token "self://" then EnsureHost (Addr ctx) else token.

(** Resolving addresses one after the other: all the resolvers, or no
    resolver and the first error. *)
Fixpoint resolveAll (addresses : list gostring)
  : list Resolver * option error :=
  match addresses with
  | [] => ([], None)
  | address :: addresses' =>
      match NewResolver address with
      | inr err => ([], Some (ErrCollaborator err))
      | inl resolver =>
          match resolveAll addresses' with
          | (resolvers, None) => (resolver :: resolvers, None)
          | (_, Some err) => ([], Some err)
          end
      end
  end.

(** Two contexts with the same configuration, as far as [Init] reads it. *)
Definition sameConfiguration (a b : Context) : Prop :=
  Addr a = Addr b /\ Stores a = Stores b /\ Attrs a = Attrs b /\
  GossipBootstrap a = GossipBootstrap b /\ CacheSize a = CacheSize b.

(** The assignments [Init] makes to the derived fields, each made or not. *)
Definition derive (engines : option (list engine.Engine))
    (attrs : option proto.Attributes) (resolvers : option (list Resolver))
    (ctx : Context) : Context :=
  let ctx := match engines with
             | Some v => set_Engines ctx v
             | None => ctx
             end in
  let ctx := match attrs with
             | Some v => set_NodeAttributes ctx v
             | None => ctx
             end in
  match resolvers with
  | Some v => set_GossipBootstrapResolvers ctx v
  | None => ctx
  end.

(** A list of store entries, attributes and location, written the way the
    comment on [Stores] describes: [attrs=location] joined by ','. *)
Fixpoint renderStores (entries : list (gostring * gostring)) : gostring :=
  match entries with
  | [] => []
  | [(attrs, location)] => attrs ++ "="%char :: location
  | (attrs, location) :: entries' =>
      attrs ++ "="%char :: location ++ ","%char :: renderStores entries'
  end.

(** The matches expected for such a list: every entry but the last is
    matched with its ','. *)
Fixpoint entryMatches (entries : list (gostring * gostring))
  : list (list gostring) :=
  match entries with
  | [] => []
  | [(attrs, location)] =>
      [[attrs ++ "="%char :: location; attrs; location; []]]
  | (attrs, location) :: entries' =>
      [attrs ++ "="%char :: location ++ ","; attrs; location; ","]
        :: entryMatches entries'
  end.

Definition wellFormedEntry (entry : gostring * gostring) : Prop :=
  fst entry <> [] /\ ~ In "="%char (fst entry) /\
  snd entry <> [] /\ ~ In ","%char (snd entry).

(** [n] calls of [GetHTTPClient] in a row, the results dropped. *)
Fixpoint GetHTTPClient_calls (n : nat) (ctx : Context) (w : nat)
  : Context * nat :=
  match n with
  | 0 => (ctx, w)
  | S n' =>
      let '(_, ctx', w') := GetHTTPClient ctx w in
      GetHTTPClient_calls n' ctx' w'
  end.

(** ** Facts about [strings.Split] *)

Lemma Split_nil (sep : ascii) : strings.Split [] sep = [[]].
Proof. reflexivity. Qed.

(** The index-driven loop of [genSplit] unfolds along the input: a separator
    closes the current piece, any other byte extends it. *)
Lemma Split_cons (x : ascii) (s : gostring) (sep : ascii) :
  strings.Split (x :: s) sep =
  if Ascii.eqb x sep then [] :: strings.Split s sep
  else match strings.Split s sep with
       | p :: ps => (x :: p) :: ps
       | [] => [[x]]
       end.
Proof.
  unfold strings.Split. simpl strings.Count.
  destruct (Ascii.eqb x sep) eqn:E.
  - simpl. rewrite E. reflexivity.
  - destruct (strings.Count s sep) as [|n]; simpl; rewrite ?E.
    + reflexivity.
    + destruct (strings.IndexByte s sep) as [m|]; reflexivity.
Qed.

Lemma Split_not_nil (s : gostring) (sep : ascii) : strings.Split s sep <> [].
Proof.
  destruct s as [|x s]; [discriminate|]. rewrite Split_cons.
  destruct (Ascii.eqb x sep); [discriminate|].
  destruct (strings.Split s sep); discriminate.
Qed.

Lemma Join_cons (p : gostring) (ps : list gostring) (sep : ascii) :
  ps <> [] -> strings.Join (p :: ps) sep = p ++ sep :: strings.Join ps sep.
Proof. destruct ps; [congruence|reflexivity]. Qed.

(** Joining the pieces with the separator gives the input back. *)
Lemma Join_Split (s : gostring) (sep : ascii) :
  strings.Join (strings.Split s sep) sep = s.
Proof.
  induction s as [|x s IH]; [reflexivity|].
  rewrite Split_cons. destruct (Ascii.eqb x sep) eqn:E.
  - apply Ascii.eqb_eq in E. subst x.
    rewrite Join_cons by apply Split_not_nil. simpl. now rewrite IH.
  - pose proof (Split_not_nil s sep) as Hne.
    destruct (strings.Split s sep) as [|p ps]; [congruence|].
    destruct ps as [|q qs]; simpl in *; now rewrite IH.
Qed.

(** No piece contains the separator. *)
Lemma Split_sep_free (s : gostring) (sep : ascii) :
  Forall (fun p => ~ In sep p) (strings.Split s sep).
Proof.
  induction s as [|x s IH].
  - repeat constructor. intros [].
  - rewrite Split_cons. destruct (Ascii.eqb x sep) eqn:E.
    + constructor; [intros []|exact IH].
    + apply Ascii.eqb_neq in E.
      destruct (strings.Split s sep) as [|p ps].
      * repeat constructor. intros [H|[]]. congruence.
      * inversion IH as [|? ? Hp Hps]; subst. constructor; [|exact Hps].
        intros [H|H]; [congruence|auto].
Qed.

(** The two facts above determine the pieces: a list of separator-free
    pieces that joins to [s] is [Split s sep]. *)
Lemma Split_unique (sep : ascii) (a : list gostring) :
  a <> [] -> Forall (fun p => ~ In sep p) a ->
  strings.Split (strings.Join a sep) sep = a.
Proof.
  induction a as [|p ps IH]; [congruence|]. intros _ HF.
  inversion HF as [|? ? Hp Hps]; subst.
  destruct ps as [|q qs].
  - simpl. clear IH HF Hps. induction p as [|x p IHp]; [reflexivity|].
    rewrite Split_cons.
    destruct (Ascii.eqb x sep) eqn:E.
    + apply Ascii.eqb_eq in E. subst. exfalso. apply Hp. now left.
    + rewrite IHp; [reflexivity|]. intros H. apply Hp. now right.
  - rewrite Join_cons by discriminate.
    specialize (IH ltac:(discriminate) Hps).
    clear HF. set (j := strings.Join (q :: qs) sep) in *.
    induction p as [|x p IHp].
    + change ([] ++ sep :: j) with (sep :: j).
      rewrite Split_cons, Ascii.eqb_refl. now rewrite IH.
    + change ((x :: p) ++ sep :: j) with (x :: (p ++ sep :: j)).
      rewrite Split_cons.
      destruct (Ascii.eqb x sep) eqn:E.
      * apply Ascii.eqb_eq in E. subst. exfalso. apply Hp. now left.
      * rewrite IHp; [reflexivity|]. intros H. apply Hp. now right.
Qed.

(** ** parseAttributes *)

Lemma parseAttributes_fold (l acc : list gostring) :
  fold_left
    (fun (filtered : list gostring) (attr : gostring) =>
       if negb (length attr =? 0) then filtered ++ [attr] else filtered)
    l acc
  = acc ++ filter (fun p => negb (length p =? 0)) l.
Proof.
  revert acc. induction l as [|p l IH]; intros acc; simpl.
  - now rewrite app_nil_r.
  - rewrite IH. destruct (negb (length p =? 0)); [|reflexivity].
    now rewrite <- app_assoc.
Qed.

Lemma parseAttributes_filter (attrsStr : gostring) :
  proto.Attrs (parseAttributes attrsStr)
  = filter (fun p => negb (length p =? 0)) (strings.Split attrsStr ":"%char).
Proof. unfold parseAttributes. simpl. now rewrite parseAttributes_fold. Qed.

(** C5: for every input, [parseAttributes] returns the non-empty pieces of
    the split on ':' (the pieces being the ':'-free strings that join back to
    the input), in input order and with duplicates kept; it is a total
    function without an error result.  In particular "", ":" and "::" give
    no attribute, and "ssd:7200rpm:ssd" gives ["ssd"; "7200rpm"; "ssd"]. *)
Theorem parseAttributes_nonempty_pieces :
  (forall attrsStr : gostring,
      let pieces := strings.Split attrsStr ":"%char in
      strings.Join pieces ":"%char = attrsStr /\
      Forall (fun p => ~ In ":"%char p) pieces /\
      proto.Attrs (parseAttributes attrsStr)
      = filter (fun p => negb (length p =? 0)) pieces) /\
  proto.Attrs (parseAttributes "") = [] /\
  proto.Attrs (parseAttributes ":") = [] /\
  proto.Attrs (parseAttributes "::") = [] /\
  proto.Attrs (parseAttributes "ssd:7200rpm:ssd") = ["ssd"; "7200rpm"; "ssd"].
Proof.
  split; [|repeat split; reflexivity].
  intros attrsStr pieces. subst pieces.
  split; [apply Join_Split|]. split; [apply Split_sep_free|].
  apply parseAttributes_filter.
Qed.

(** ** strconv.ParseUint reads decimal numerals below 2^64 *)

Lemma decimal_loop_le (s : gostring) (n m : Z) :
  (0 <= n)%Z -> strconv.decimal_loop s n = Some m -> (n <= m)%Z.
Proof.
  revert n. induction s as [|d s IH]; intros n Hn;
    cbn [strconv.decimal_loop].
  - intros [= <-]. lia.
  - unfold strconv.is_digit.
    destruct ((48 <=? strconv.byte_val d)%Z && (strconv.byte_val d <=? 57)%Z)
      eqn:E; [|discriminate].
    apply andb_prop in E. destruct E as [E1 E2].
    apply Z.leb_le in E1. apply Z.leb_le in E2.
    intros H. apply IH in H; lia.
Qed.

Lemma ParseUint_loop_decimal (s : gostring) (n m : Z) :
  (0 <= n < 18446744073709551616)%Z ->
  strconv.ParseUint_loop s 10 1844674407370955162 18446744073709551615 n
  = (m, None)
  <-> strconv.decimal_loop s n = Some m /\ (m < 18446744073709551616)%Z.
Proof.
  revert n. induction s as [|d s IH]; intros n Hn;
    cbn [strconv.ParseUint_loop strconv.decimal_loop].
  - split.
    + intros [= <-]. split; [reflexivity|lia].
    + intros [[= <-] _]. reflexivity.
  - unfold strconv.digit, strconv.is_digit.
    destruct ((48 <=? strconv.byte_val d)%Z && (strconv.byte_val d <=? 57)%Z)
      eqn:E.
    + apply andb_prop in E. destruct E as [E1 E2].
      apply Z.leb_le in E1. apply Z.leb_le in E2.
      destruct (10 <=? strconv.byte_val d - 48)%Z eqn:E3;
        [apply Z.leb_le in E3; lia|]. clear E3.
      destruct (1844674407370955162 <=? n)%Z eqn:E4.
      * apply Z.leb_le in E4. split; [discriminate|].
        intros [H Hm]. apply decimal_loop_le in H; lia.
      * apply Z.leb_gt in E4. unfold strconv.uint64.
        change (2 ^ 64)%Z with 18446744073709551616%Z.
        rewrite (Z.mod_small (n * 10)) by lia.
        destruct (Z_lt_dec (n * 10 + (strconv.byte_val d - 48))
                           18446744073709551616) as [Hlt|Hge].
        -- rewrite Z.mod_small by lia.
           destruct (n * 10 + (strconv.byte_val d - 48) <? n * 10)%Z eqn:E5;
             [apply Z.ltb_lt in E5; lia|].
           destruct (18446744073709551615 <?
                     n * 10 + (strconv.byte_val d - 48))%Z eqn:E6;
             [apply Z.ltb_lt in E6; lia|].
           simpl orb. cbv iota. rewrite IH by lia.
           replace (10 * n + (strconv.byte_val d - 48))%Z
             with (n * 10 + (strconv.byte_val d - 48))%Z by lia.
           reflexivity.
        -- replace ((n * 10 + (strconv.byte_val d - 48))
                      mod 18446744073709551616)%Z
             with (n * 10 + (strconv.byte_val d - 48) - 18446744073709551616)%Z.
           2:{ apply (Z.mod_unique _ _ 1); lia. }
           destruct (n * 10 + (strconv.byte_val d - 48) - 18446744073709551616
                     <? n * 10)%Z eqn:E5; [|apply Z.ltb_ge in E5; lia].
           simpl orb. cbv iota. split; [discriminate|].
           intros [H Hm]. apply decimal_loop_le in H; lia.
    + split; [|intros [H _]; discriminate].
      destruct ((97 <=? strconv.byte_val d)%Z
                && (strconv.byte_val d <=? 122)%Z) eqn:Ea.
      { apply andb_prop in Ea. destruct Ea as [Ea1 Ea2].
        apply Z.leb_le in Ea1.
        destruct (10 <=? strconv.byte_val d - 97 + 10)%Z eqn:E3;
          [discriminate|apply Z.leb_gt in E3; lia]. }
      destruct ((65 <=? strconv.byte_val d)%Z
                && (strconv.byte_val d <=? 90)%Z) eqn:Eb; [|discriminate].
      apply andb_prop in Eb. destruct Eb as [Eb1 Eb2].
      apply Z.leb_le in Eb1.
      destruct (10 <=? strconv.byte_val d - 65 + 10)%Z eqn:E3;
        [discriminate|apply Z.leb_gt in E3; lia].
Qed.

(** [ParseUint(s, 10, 64)] succeeds exactly on the non-empty strings of
    decimal digits whose value is below 2^64, and returns that value. *)
Lemma ParseUint_decimal (s : gostring) (m : Z) :
  strconv.ParseUint s 10 64 = (m, None)
  <-> strconv.decimal_value s = Some m /\ (m < 2 ^ 64)%Z.
Proof.
  unfold strconv.ParseUint, strconv.decimal_value.
  destruct s as [|d s]; [simpl; split; [discriminate|intros [H _]; discriminate]|].
  change (length (d :: s) <? 1) with false. cbv iota.
  change ((2 <=? 10)%Z && (10 <=? 36)%Z) with true. cbv iota.
  change ((2 ^ 64 - 1) / 10 + 1)%Z with 1844674407370955162%Z.
  change (strconv.uint64 (strconv.uint64 (2 ^ 64) - 1))
    with 18446744073709551615%Z.
  change (2 ^ 64)%Z with 18446744073709551616%Z.
  apply ParseUint_loop_decimal. lia.
Qed.

Lemma ParseUint_range (s : gostring) (m : Z) :
  strconv.ParseUint s 10 64 = (m, None) -> (0 <= m < 2 ^ 64)%Z.
Proof.
  intros H. apply ParseUint_decimal in H. destruct H as [H Hm].
  split; [|exact Hm]. unfold strconv.decimal_value in H.
  destruct s; [discriminate|]. apply decimal_loop_le in H; lia.
Qed.

(** ** initEngine *)

Lemma initEngine_parsed (ctx : Context) (attrsStr path : gostring) (size : Z) :
  strconv.ParseUint path 10 64 = (size, None) ->
  initEngine ctx attrsStr path
  = if (size =? 0)%Z then inr ErrZeroCapacity
    else inl (engine.InMem (parseAttributes attrsStr) (int64_of_uint64 size)).
Proof. unfold initEngine. now intros ->. Qed.

Lemma initEngine_path (ctx : Context) (attrsStr path : gostring) :
  snd (strconv.ParseUint path 10 64) <> None ->
  initEngine ctx attrsStr path
  = inl (engine.RocksDB (parseAttributes attrsStr) path (CacheSize ctx)).
Proof.
  unfold initEngine.
  destruct (strconv.ParseUint path 10 64) as [size [e|]]; simpl;
    [reflexivity|congruence].
Qed.

(** Below 2^63 the conversion to [int64] keeps the value, and the engine has
    the capacity that was written. *)
Lemma initEngine_in_memory (ctx : Context) (attrsStr path : gostring)
    (size : Z) :
  strconv.ParseUint path 10 64 = (size, None) ->
  (1 <= size < 2 ^ 63)%Z ->
  initEngine ctx attrsStr path
  = inl (engine.InMem (parseAttributes attrsStr) size).
Proof.
  intros H Hs. rewrite (initEngine_parsed _ _ _ H).
  destruct (size =? 0)%Z eqn:E; [apply Z.eqb_eq in E; lia|].
  unfold int64_of_uint64.
  destruct (size <? 2 ^ 63)%Z eqn:E'; [reflexivity|apply Z.ltb_ge in E'; lia].
Qed.

(** C3: the location "9223372036854775808" parses as the unsigned 64-bit
    value 2^63, and [initEngine] returns an in-memory engine whose capacity
    is -2^63, not the parsed value: [int64(size)] wraps from 2^63 on. *)
Theorem initEngine_capacity_wraps_at_2_63 (ctx : Context)
    (attrsStr : gostring) :
  strconv.ParseUint "9223372036854775808" 10 64
  = (9223372036854775808%Z, None) /\
  initEngine ctx attrsStr "9223372036854775808"
  = inl (engine.InMem (parseAttributes attrsStr) (-9223372036854775808)%Z).
Proof. split; reflexivity. Qed.

(** ** regexp: every match reads forward and keeps the submatch table *)

Lemma reads_refl (i : regexp.input) : reads i i.
Proof. exists []. simpl. split; [reflexivity|lia]. Qed.

Lemma reads_trans (i j k : regexp.input) : reads i j -> reads j k -> reads i k.
Proof.
  intros [p [Hp Hq]] [p' [Hp' Hq']]. exists (p ++ p'). split.
  - rewrite Hp, Hp'. now rewrite app_assoc.
  - rewrite Hq', Hq, length_app. lia.
Qed.

Lemma set_nth_length (A : Type) (n : nat) (v : A) (l : list A) :
  length (regexp.set_nth n v l) = length l.
Proof.
  revert n. induction l as [|x l IH]; intros [|n]; simpl; auto.
Qed.

Lemma plus_unfold (m : regexp.cont -> regexp.cont) (n : nat)
    (k : regexp.cont) (i : regexp.input) (c : regexp.caps) :
  regexp.plus m n k i c
  = m (fun i' c' =>
         match n with
         | 0 => k i' c'
         | S n' =>
             if regexp.pos i' =? regexp.pos i then k i' c'
             else regexp.orelse (regexp.plus m n' k i' c') (k i' c')
         end) i c.
Proof. destruct n; reflexivity. Qed.

Lemma plus_forward (m : regexp.cont -> regexp.cont) :
  forward m -> forall n, forward (regexp.plus m n).
Proof.
  intros Hm n. induction n as [|n IH]; intros k i c x; rewrite plus_unfold;
    intros H; apply Hm in H; destruct H as [i1 [c1 [Hr [Hl H]]]].
  - now exists i1, c1.
  - destruct (regexp.pos i1 =? regexp.pos i); [now exists i1, c1|].
    destruct (regexp.plus m n k i1 c1) as [y|] eqn:E; simpl in H.
    + injection H as ->. apply IH in E.
      destruct E as [i2 [c2 [Hr2 [Hl2 E]]]]. exists i2, c2.
      split; [eapply reads_trans; eassumption|]. split; [congruence|exact E].
    + now exists i1, c1.
Qed.

Lemma backtrack_forward (r : regexp.Regexp) : forward (regexp.backtrack r).
Proof.
  assert (Hstep : forall p, forward (regexp.step p)).
  { intros p k i c x. unfold regexp.step.
    destruct (regexp.rest i) as [|y t] eqn:E; [discriminate|].
    destruct (p y); [|discriminate]. intros H.
    exists {| regexp.rest := t; regexp.pos := S (regexp.pos i) |}, c.
    split; [|now split]. exists [y]. simpl. split; [exact E|lia]. }
  induction r as [a|a| |r1 IH1 r2 IH2|r1 IH1 r2 IH2|r1 IH1|n r1 IH1];
    simpl; try apply Hstep.
  - intros k i c x. destruct (regexp.rest i); [|discriminate].
    intros H. exists i, c. split; [apply reads_refl|now split].
  - intros k i c x H. apply IH1 in H. destruct H as [i1 [c1 [Hr [Hl H]]]].
    apply IH2 in H. destruct H as [i2 [c2 [Hr2 [Hl2 H]]]].
    exists i2, c2. split; [eapply reads_trans; eassumption|].
    split; [congruence|exact H].
  - intros k i c x. destruct (regexp.backtrack r1 k i c) eqn:E; simpl.
    + intros [= ->]. now apply IH1 in E.
    + intros H. now apply IH2 in H.
  - intros k i c x H. now apply (plus_forward IH1) in H.
  - intros k i c x H. apply IH1 in H. destruct H as [i1 [c1 [Hr [Hl H]]]].
    exists i1, (regexp.set_nth n (Some (regexp.pos i, regexp.pos i1)) c1).
    split; [exact Hr|]. split; [|exact H]. now rewrite set_nth_length.
Qed.

(** A match at [i] has its whole-match entry from [pos i] to the offset
    reached, inside the text, and one entry per group. *)
Lemma matchAt_Some (re : regexp.Regexp) (i : regexp.input) (x : regexp.caps) :
  regexp.matchAt re i = Some x ->
  length x = 1 + regexp.NumSubexp re /\
  exists e, nth 0 x None = Some (regexp.pos i, e) /\
            regexp.pos i <= e <= regexp.pos i + length (regexp.rest i).
Proof.
  unfold regexp.matchAt. intros H. apply backtrack_forward in H.
  destruct H as [i' [c' [[pre [Hr Hp]] [Hl H]]]]. injection H as <-.
  rewrite repeat_length in Hl.
  destruct c' as [|c0 c']; [discriminate|]. simpl in *.
  split; [exact Hl|]. exists (regexp.pos i'). split; [reflexivity|].
  rewrite Hr, length_app. lia.
Qed.

Lemma search_Some (re : regexp.Regexp) (rest : gostring) (pos : nat)
    (x : regexp.caps) :
  regexp.search re rest pos = Some x ->
  length x = 1 + regexp.NumSubexp re /\
  exists b e, nth 0 x None = Some (b, e) /\
              pos <= b /\ b <= e <= pos + length rest.
Proof.
  revert pos. induction rest as [|y rest IH]; intros pos; simpl.
  - destruct (regexp.matchAt re {| regexp.rest := []; regexp.pos := pos |})
      eqn:E; [|discriminate].
    intros [= ->]. apply matchAt_Some in E. destruct E as [Hl [e [He Hb]]].
    split; [exact Hl|]. exists pos, e. simpl in *. repeat split; try lia.
    exact He.
  - destruct (regexp.matchAt re
                {| regexp.rest := y :: rest; regexp.pos := pos |}) eqn:E.
    + intros [= ->]. apply matchAt_Some in E. destruct E as [Hl [e [He Hb]]].
      split; [exact Hl|]. exists pos, e. simpl in *. repeat split; try lia.
      exact He.
    + intros H. apply IH in H. destruct H as [Hl [b [e [He Hb]]]].
      split; [exact Hl|]. exists b, e. split; [exact He|]. lia.
Qed.

Lemma doExecute_Some (re : regexp.Regexp) (s : gostring) (pos : nat)
    (x : regexp.caps) :
  pos <= length s ->
  regexp.doExecute re s pos = Some x ->
  length x = 1 + regexp.NumSubexp re /\
  exists b e, nth 0 x None = Some (b, e) /\ pos <= b /\ b <= e <= length s.
Proof.
  intros Hp H. apply search_Some in H. rewrite length_skipn in H.
  destruct H as [Hl [b [e [He Hb]]]]. split; [exact Hl|].
  exists b, e. split; [exact He|]. lia.
Qed.

(** The position grows in every round of [allMatches], so the rounds
    allowed by [allMatches] are enough: more fuel gives the same matches. *)
Lemma allMatches_loop_fuel (re : regexp.Regexp) (s : gostring) (n : nat)
    (fuel1 fuel2 pos i : nat) (prev : option nat) :
  length s + 2 - pos <= fuel1 -> length s + 2 - pos <= fuel2 ->
  regexp.allMatches_loop fuel1 re s n pos i prev
  = regexp.allMatches_loop fuel2 re s n pos i prev.
Proof.
  revert fuel2 pos i prev.
  induction fuel1 as [|f1 IH]; intros fuel2 pos i prev H1 H2.
  - destruct fuel2 as [|f2]; [reflexivity|]. simpl.
    destruct (pos <=? length s) eqn:E; [apply Nat.leb_le in E; lia|].
    now rewrite andb_false_r.
  - destruct fuel2 as [|f2].
    + simpl. destruct (pos <=? length s) eqn:E; [apply Nat.leb_le in E; lia|].
      now rewrite andb_false_r.
    + simpl. destruct ((i <? n) && (pos <=? length s)) eqn:E; [|reflexivity].
      apply andb_prop in E. destruct E as [_ E]. apply Nat.leb_le in E.
      destruct (regexp.doExecute re s pos) as [x|] eqn:Ex; [|reflexivity].
      apply doExecute_Some in Ex; [|exact E].
      destruct Ex as [_ [b [e [He Hb]]]]. rewrite He.
      assert (Hpos : pos <
                (if e =? pos
                 then if pos <? length s then pos + 1 else length s + 1
                 else e)).
      { destruct (e =? pos) eqn:Ee.
        - destruct (pos <? length s) eqn:El; [lia|].
          apply Nat.ltb_ge in El. lia.
        - apply Nat.eqb_neq in Ee. lia. }
      match goal with |- context [negb ?t] => destruct (negb t) end.
      * f_equal. apply IH; lia.
      * apply IH; lia.
Qed.

Lemma allMatches_loop_length (re : regexp.Regexp) (s : gostring) (n : nat)
    (fuel pos i : nat) (prev : option nat) :
  Forall (fun x : regexp.caps => length x = 1 + regexp.NumSubexp re)
         (regexp.allMatches_loop fuel re s n pos i prev).
Proof.
  revert pos i prev. induction fuel as [|f IH]; intros pos i prev; simpl.
  - constructor.
  - destruct ((i <? n) && (pos <=? length s)) eqn:E; [|constructor].
    apply andb_prop in E. destruct E as [_ E]. apply Nat.leb_le in E.
    destruct (regexp.doExecute re s pos) as [x|] eqn:Ex; [|constructor].
    apply doExecute_Some in Ex; [|exact E].
    destruct Ex as [Hl [b [e [He Hb]]]]. rewrite He.
    match goal with |- context [negb ?t] => destruct (negb t) end.
    + constructor; [exact Hl|apply IH].
    + apply IH.
Qed.

(** Every match that [FindAllStringSubmatch] returns has the whole match and
    one string per group of the pattern. *)
Lemma FindAllStringSubmatch_length (re : regexp.Regexp) (s : gostring)
    (n : Z) :
  Forall (fun m : list gostring => length m = 1 + regexp.NumSubexp re)
         (regexp.FindAllStringSubmatch re s n).
Proof.
  unfold regexp.FindAllStringSubmatch, regexp.allMatches.
  apply Forall_map.
  eapply Forall_impl; [|apply allMatches_loop_length].
  intros x Hx. now rewrite length_map.
Qed.

(** ** The pattern of [Init], match by match *)

Lemma span_app (p : ascii -> bool) (s : gostring) :
  fst (span p s) ++ snd (span p s) = s.
Proof.
  induction s as [|x s IH]; simpl; [reflexivity|].
  destruct (p x); [|reflexivity].
  destruct (span p s) as [a b]. simpl in *. now rewrite IH.
Qed.

Lemma span_Forall (p : ascii -> bool) (s : gostring) :
  Forall (fun x => p x = true) (fst (span p s)).
Proof.
  induction s as [|x s IH]; simpl; [constructor|].
  destruct (p x) eqn:E; [|constructor].
  destruct (span p s) as [a b]. simpl in *. now constructor.
Qed.

Lemma span_stop (p : ascii -> bool) (s a b : gostring) (y : ascii) :
  span p s = (a, y :: b) -> p y = false.
Proof.
  revert a. induction s as [|x s IH]; intros a; simpl; [discriminate|].
  destruct (p x) eqn:E.
  - destruct (span p s) as [a' b'] eqn:Es. intros [= _ ->]. eapply IH.
    reflexivity.
  - intros [= _ <- _]. exact E.
Qed.

(** A prefix that satisfies [p] and stops at a byte that does not, or at
    the end, is the one [span] takes. *)
Lemma span_prefix (p : ascii -> bool) (a b : gostring) :
  Forall (fun x => p x = true) a ->
  (b = [] \/ exists y b', b = y :: b' /\ p y = false) ->
  span p (a ++ b) = (a, b).
Proof.
  intros Ha Hb. induction Ha as [|x a Hx Ha IH]; simpl.
  - destruct Hb as [-> | [y [b' [-> Hy]]]]; simpl; [reflexivity|].
    now rewrite Hy.
  - now rewrite Hx, IH.
Qed.

Lemma notByte_true (c x : ascii) : notByte c x = true <-> x <> c.
Proof.
  unfold notByte. rewrite negb_true_iff. apply Ascii.eqb_neq.
Qed.

Lemma notByte_false (c x : ascii) : notByte c x = false <-> x = c.
Proof.
  unfold notByte. rewrite negb_false_iff. apply Ascii.eqb_eq.
Qed.

Lemma notByte_Forall (c : ascii) (a : gostring) :
  Forall (fun x => notByte c x = true) a <-> ~ In c a.
Proof.
  rewrite Forall_forall. split.
  - intros H Hin. apply H in Hin. apply notByte_true in Hin. congruence.
  - intros H x Hin. apply notByte_true. intros ->. contradiction.
Qed.

(** The greedy iteration of a byte class takes the longest run when the
    continuation has no use for a byte of the class: giving back bytes of
    the run cannot help. *)
Lemma plus_step_greedy (p : ascii -> bool) (k : regexp.cont) :
  (forall x r q c,
      p x = true -> k {| regexp.rest := x :: r; regexp.pos := q |} c = None) ->
  forall n rest pos c,
    length rest <= n ->
    regexp.plus (regexp.step p) n k
                {| regexp.rest := rest; regexp.pos := pos |} c
    = match span p rest with
      | ([], _) => None
      | ((_ :: _) as a, b) =>
          k {| regexp.rest := b; regexp.pos := pos + length a |} c
      end.
Proof.
  intros Hk n. induction n as [|n IH]; intros rest pos c Hn;
    rewrite plus_unfold; unfold regexp.step at 1; cbn [regexp.rest regexp.pos].
  - destruct rest; [reflexivity|simpl in Hn; lia].
  - destruct rest as [|x r]; [reflexivity|]. cbn [span].
    destruct (p x) eqn:Ex; [|reflexivity].
    replace (S pos =? pos) with false by (symmetry; apply Nat.eqb_neq; lia).
    rewrite IH by (simpl in Hn; lia).
    pose proof (span_app p r) as Happ. pose proof (span_Forall p r) as Hall.
    destruct (span p r) as [a b]. simpl in Happ, Hall.
    destruct a as [|y a].
    + simpl in Happ. subst b. simpl. f_equal. f_equal. lia.
    + subst r. inversion Hall as [|? ? Hy _]; subst.
      change ((y :: a) ++ b) with (y :: a ++ b).
      rewrite (Hk y (a ++ b) (S pos) c Hy).
      cbn [length].
      replace (pos + S (S (length a))) with (S pos + S (length a)) by lia.
      now destruct (k _ c).
Qed.

Lemma matchAt_storesRE (rest : gostring) (pos : nat) :
  regexp.matchAt storesRE {| regexp.rest := rest; regexp.pos := pos |}
  = storeSpec_at rest pos.
Proof.
  unfold regexp.matchAt, storesRE, storeSpec_at.
  cbn [regexp.backtrack regexp.NumSubexp regexp.rest regexp.pos Nat.add repeat].
  rewrite plus_step_greedy with (p := notByte "=").
  2:{ intros x r q c Hx. unfold regexp.step. cbn [regexp.rest].
      apply notByte_true in Hx. apply Ascii.eqb_neq in Hx. now rewrite Hx. }
  2:{ apply Nat.le_refl. }
  destruct (span (notByte "=") rest) as [a b] eqn:Ea.
  destruct a as [|a0 a]; [reflexivity|].
  destruct b as [|y r2]; [reflexivity|].
  pose proof (span_stop _ _ Ea) as Hy. apply notByte_false in Hy. subst y.
  unfold regexp.step at 1. cbn [regexp.rest regexp.pos].
  rewrite Ascii.eqb_refl.
  rewrite plus_step_greedy with (p := notByte ",").
  2:{ intros x r q c Hx. unfold regexp.step. cbn [regexp.rest].
      apply notByte_true in Hx. apply Ascii.eqb_neq in Hx. now rewrite Hx. }
  2:{ apply Nat.le_refl. }
  destruct (span (notByte ",") r2) as [l r3] eqn:El.
  destruct l as [|l0 l]; [reflexivity|].
  destruct r3 as [|z r3].
  - reflexivity.
  - pose proof (span_stop _ _ El) as Hz. apply notByte_false in Hz. subst z.
    unfold regexp.step. cbn [regexp.rest regexp.pos].
    rewrite Ascii.eqb_refl. reflexivity.
Qed.

Lemma storeSpec_at_Some (rest : gostring) (pos : nat) (x : regexp.caps) :
  storeSpec_at rest pos = Some x ->
  exists a l t post,
    rest = a ++ "="%char :: l ++ t ++ post /\
    isStoreSpec a l t /\ (t = [] -> post = []) /\
    x = [Some (pos, pos + length a + 1 + length l + length t);
         Some (pos, pos + length a);
         Some (pos + length a + 1, pos + length a + 1 + length l);
         Some (pos + length a + 1 + length l,
               pos + length a + 1 + length l + length t)].
Proof.
  unfold storeSpec_at.
  pose proof (span_app (notByte "=") rest) as Ha.
  pose proof (span_Forall (notByte "=") rest) as Fa.
  destruct (span (notByte "=") rest) as [a b] eqn:Ea. simpl in Ha, Fa.
  destruct a as [|a0 a]; [discriminate|].
  destruct b as [|y r2]; [discriminate|].
  pose proof (span_stop _ _ Ea) as Hy. apply notByte_false in Hy. subst y.
  pose proof (span_app (notByte ",") r2) as Hl.
  pose proof (span_Forall (notByte ",") r2) as Fl.
  destruct (span (notByte ",") r2) as [l r3] eqn:El. simpl in Hl, Fl.
  destruct l as [|l0 l]; [discriminate|].
  apply notByte_Forall in Fa. apply notByte_Forall in Fl.
  intros [= <-]. destruct r3 as [|z r3].
  - exists (a0 :: a), (l0 :: l), [], []. subst r2 rest.
    split; [reflexivity|].
    split; [repeat split; try discriminate; auto|].
    split; [reflexivity|]. simpl length. repeat f_equal; lia.
  - pose proof (span_stop _ _ El) as Hz. apply notByte_false in Hz. subst z.
    exists (a0 :: a), (l0 :: l), [","%char], r3. subst r2 rest.
    split; [reflexivity|].
    split; [repeat split; try discriminate; auto|].
    split; [discriminate|]. simpl length. repeat f_equal; lia.
Qed.

Lemma storeSpec_at_complete (a l post : gostring) (pos : nat) :
  a <> [] -> ~ In "="%char a -> l <> [] -> ~ In ","%char l ->
  (post = [] \/ exists post', post = ","%char :: post') ->
  storeSpec_at (a ++ "="%char :: l ++ post) pos <> None.
Proof.
  intros Ha Fa Hl Fl Hpost. unfold storeSpec_at.
  rewrite (span_prefix (notByte "=") (a := a)).
  2:{ now apply notByte_Forall. }
  2:{ right. eexists _, _. split; [reflexivity|]. now apply notByte_false. }
  destruct a as [|a0 a]; [congruence|].
  rewrite (span_prefix (notByte ",") (a := l)).
  2:{ now apply notByte_Forall. }
  2:{ destruct Hpost as [-> | [post' ->]]; [now left|right].
      eexists _, _. split; [reflexivity|]. now apply notByte_false. }
  destruct l as [|l0 l]; [congruence|]. discriminate.
Qed.

Lemma search_storesRE_Some (rest : gostring) (pos : nat) (x : regexp.caps) :
  regexp.search storesRE rest pos = Some x ->
  exists gap rest',
    rest = gap ++ rest' /\ storeSpec_at rest' (pos + length gap) = Some x.
Proof.
  revert pos. induction rest as [|y rest IH]; intros pos;
    cbn [regexp.search]; rewrite matchAt_storesRE.
  - destruct (storeSpec_at [] pos) eqn:E; [|discriminate].
    intros [= ->]. exists [], []. split; [reflexivity|].
    simpl. now rewrite Nat.add_0_r.
  - destruct (storeSpec_at (y :: rest) pos) eqn:E.
    + intros [= ->]. exists [], (y :: rest). split; [reflexivity|].
      simpl. now rewrite Nat.add_0_r.
    + intros H. apply IH in H. destruct H as [gap [rest' [-> H]]].
      exists (y :: gap), rest'. split; [reflexivity|].
      simpl length. now rewrite Nat.add_succ_r.
Qed.

Lemma search_storesRE_None (rest : gostring) (pos : nat) :
  regexp.search storesRE rest pos = None ->
  forall gap rest',
    rest = gap ++ rest' -> storeSpec_at rest' (pos + length gap) = None.
Proof.
  revert pos. induction rest as [|y rest IH]; intros pos;
    cbn [regexp.search]; rewrite matchAt_storesRE.
  - destruct (storeSpec_at [] pos) eqn:E; [discriminate|].
    intros _ gap rest' H. symmetry in H. apply app_eq_nil in H.
    destruct H as [-> ->]. simpl. now rewrite Nat.add_0_r.
  - destruct (storeSpec_at (y :: rest) pos) eqn:E; [discriminate|].
    intros H gap rest' Hs. destruct gap as [|g gap].
    + simpl in Hs. subst rest'. simpl. now rewrite Nat.add_0_r.
    + injection Hs as Hg Hr. subst y rest. simpl length.
      rewrite Nat.add_succ_r. now apply (IH (S pos) H gap rest').
Qed.

(** The search finds a match exactly when the text has one. *)
Lemma search_storesRE_hasStoreSpec (rest : gostring) (pos : nat) :
  regexp.search storesRE rest pos = None <-> ~ hasStoreSpec rest.
Proof.
  split.
  - intros H [gap [a [l [post [Hs [Ha [Fa [Hl [Fl Hpost]]]]]]]]].
    apply (storeSpec_at_complete (pos + length gap) Ha Fa Hl Fl Hpost).
    now apply (search_storesRE_None _ H gap).
  - intros H. destruct (regexp.search storesRE rest pos) as [x|] eqn:E;
      [|reflexivity].
    exfalso. apply H. apply search_storesRE_Some in E.
    destruct E as [gap [rest' [-> E]]]. apply storeSpec_at_Some in E.
    destruct E as [a [l [t [post [-> [[Ha [Fa [Hl [Fl Ht]]]] [Hp _]]]]]]].
    exists gap, a, l, (t ++ post). split; [reflexivity|].
    repeat (split; [assumption|]).
    destruct Ht as [-> | ->]; [right; now exists post|left].
    now rewrite Hp.
Qed.

Lemma slice_mid (s u v w : gostring) (lo hi : nat) :
  s = u ++ v ++ w -> lo = length u -> hi = length u + length v ->
  regexp.slice s lo hi = v.
Proof.
  intros -> -> ->. unfold regexp.slice.
  rewrite skipn_app, skipn_all, Nat.sub_diag. simpl.
  replace (length u + length v - length u) with (length v) by lia.
  rewrite firstn_app, firstn_all, Nat.sub_diag. simpl. apply app_nil_r.
Qed.

(** The matches that [allMatches] delivers for the pattern of [Init], as
    strings, are the store specifications of the text from left to right. *)
Lemma allMatches_loop_scanned (s : gostring) (fuel : nat) :
  forall (pre rest : gostring) (pos i : nat) (prev : option nat),
    s = pre ++ rest -> pos = length pre -> i <= pos ->
    length rest + 2 <= fuel ->
    scanned rest
      (map (fun matches : regexp.caps =>
              map (fun m => match m with
                            | Some (lo, hi) => regexp.slice s lo hi
                            | None => []
                            end) matches)
           (regexp.allMatches_loop fuel storesRE s (length s + 1) pos i prev)).
Proof.
  induction fuel as [|f IH]; intros pre rest pos i prev Hs Hpos Hi Hf;
    [lia|].
  cbn [regexp.allMatches_loop].
  assert (Hlen : length s = length pre + length rest)
    by (rewrite Hs; apply length_app).
  replace (i <? length s + 1) with true
    by (symmetry; apply Nat.ltb_lt; lia).
  replace (pos <=? length s) with true
    by (symmetry; apply Nat.leb_le; lia).
  cbn [andb]. unfold regexp.doExecute.
  replace (skipn pos s) with rest.
  2:{ subst s pos. rewrite skipn_app, skipn_all, Nat.sub_diag.
      reflexivity. }
  destruct (regexp.search storesRE rest pos) as [x|] eqn:E.
  2:{ apply scanned_rest. now apply (search_storesRE_hasStoreSpec rest pos). }
  apply search_storesRE_Some in E. destruct E as [gap [rest' [Hr E]]].
  apply storeSpec_at_Some in E.
  destruct E as [a [l [t [post [Hr' [Hspec [Hpost ->]]]]]]].
  cbn [nth map].
  assert (Ha : a <> []) by apply Hspec.
  assert (Hla : 1 <= length a) by (destruct a; [congruence|simpl; lia]).
  replace (pos + length gap + length a + 1 + length l + length t =? pos)
    with false by (symmetry; apply Nat.eqb_neq; lia).
  cbn [andb negb map].
  assert (Hrest : rest = gap ++ a ++ "="%char :: l ++ t ++ post)
    by (now rewrite Hr, Hr').
  rewrite Hrest.
  rewrite (@slice_mid s (pre ++ gap) (a ++ "="%char :: l ++ t) post).
  2:{ rewrite Hs, Hrest. repeat (rewrite <- app_assoc; cbn [app]).
      reflexivity. }
  2:{ rewrite length_app. lia. }
  2:{ rewrite !length_app. cbn [length]. rewrite !length_app. lia. }
  rewrite (@slice_mid s (pre ++ gap) a ("="%char :: l ++ t ++ post)).
  2:{ rewrite Hs, Hrest. repeat (rewrite <- app_assoc; cbn [app]).
      reflexivity. }
  2:{ rewrite length_app. lia. }
  2:{ rewrite !length_app. lia. }
  rewrite (@slice_mid s (pre ++ gap ++ a ++ ["="%char]) l (t ++ post)).
  2:{ rewrite Hs, Hrest. repeat (rewrite <- app_assoc; cbn [app]).
      reflexivity. }
  2:{ rewrite !length_app. cbn [length]. lia. }
  2:{ rewrite !length_app. cbn [length]. lia. }
  rewrite (@slice_mid s (pre ++ gap ++ a ++ "="%char :: l) t post).
  2:{ rewrite Hs, Hrest. repeat (rewrite <- app_assoc; cbn [app]).
      reflexivity. }
  2:{ rewrite !length_app. cbn [length]. lia. }
  2:{ rewrite !length_app. cbn [length]. lia. }
  apply scanned_match; [exact Hspec|exact Hpost|].
  apply (IH (pre ++ gap ++ a ++ "="%char :: l ++ t) post).
  - rewrite Hs, Hrest. repeat (rewrite <- app_assoc; cbn [app]). reflexivity.
  - rewrite !length_app. cbn [length]. rewrite !length_app. lia.
  - lia.
  - rewrite Hrest in Hf. rewrite !length_app in Hf. cbn [length] in Hf.
    rewrite !length_app in Hf. lia.
Qed.

(** What [FindAllStringSubmatch] returns for the pattern of [Init]. *)
Lemma FindAllStringSubmatch_scanned (s : gostring) :
  scanned s (regexp.FindAllStringSubmatch storesRE s (-1)).
Proof.
  unfold regexp.FindAllStringSubmatch, regexp.allMatches.
  change (-1 <? 0)%Z with true. cbv iota.
  apply (@allMatches_loop_scanned s (length s + 2) [] s);
    simpl; auto; lia.
Qed.

Lemma scanned_cons_hasStoreSpec (s : gostring) (spec : list gostring)
    (specs : list (list gostring)) :
  scanned s (spec :: specs) -> hasStoreSpec s.
Proof.
  intros H. inversion H as [|gap a l t s' specs' Hspec Ht Hsc]; subst.
  destruct Hspec as [Ha [Fa [Hl [Fl Hterm]]]].
  exists gap, a, l, (t ++ s'). split; [reflexivity|].
  repeat (split; [assumption|]).
  destruct Hterm as [-> | ->]; [right; now exists s'|left].
  now rewrite Ht.
Qed.

Lemma scanned_nil_iff (s : gostring) (specs : list (list gostring)) :
  scanned s specs -> (specs = [] <-> ~ hasStoreSpec s).
Proof.
  intros H. destruct specs as [|spec specs].
  - inversion H; subst. split; auto.
  - split; [discriminate|]. intros Hn. exfalso. apply Hn.
    eapply scanned_cons_hasStoreSpec, H.
Qed.

(** ** Context.Init: the store-spec phase *)

Lemma initEngine_ext (ctx1 ctx2 : Context) (attrsStr path : gostring) :
  CacheSize ctx1 = CacheSize ctx2 ->
  initEngine ctx1 attrsStr path = initEngine ctx2 attrsStr path.
Proof. unfold initEngine. now intros ->. Qed.

Lemma initEngine_error (ctx : Context) (attrsStr path : gostring)
    (err : error) :
  initEngine ctx attrsStr path = inr err -> err = ErrZeroCapacity.
Proof.
  unfold initEngine.
  destruct (strconv.ParseUint path 10 64) as [size [e|]]; [discriminate|].
  destruct (size =? 0)%Z; [now intros [= <-]|discriminate].
Qed.

(** The loop only appends to [Engines], and what it appends depends on the
    context through [CacheSize] alone. *)
Lemma Init_stores_ext (specs : list (list gostring)) :
  forall (ctx1 ctx2 c1 : Context) (r : option error),
    CacheSize ctx1 = CacheSize ctx2 ->
    Init_stores ctx1 specs = (c1, r) ->
    exists engines,
      c1 = set_Engines ctx1 (Engines ctx1 ++ engines) /\
      Init_stores ctx2 specs
      = (set_Engines ctx2 (Engines ctx2 ++ engines), r).
Proof.
  assert (Hid : forall c : Context, c = set_Engines c (Engines c ++ [])).
  { intros c. rewrite app_nil_r. now destruct c. }
  induction specs as [|store specs IH]; intros ctx1 ctx2 c1 r Hc;
    cbn [Init_stores].
  - intros [= <- <-]. exists []. split; [apply Hid|]. now rewrite <- Hid.
  - destruct (negb (length store =? 4)).
    { destruct (nth_error store 0); intros [= <- <-]; exists [];
        (split; [apply Hid|now rewrite <- Hid]). }
    destruct (nth_error store 0) as [store0|];
      [|intros [= <- <-]; exists [];
        (split; [apply Hid|now rewrite <- Hid])].
    destruct (nth_error store 1) as [store1|];
      [|intros [= <- <-]; exists [];
        (split; [apply Hid|now rewrite <- Hid])].
    destruct (nth_error store 2) as [store2|];
      [|intros [= <- <-]; exists [];
        (split; [apply Hid|now rewrite <- Hid])].
    rewrite (initEngine_ext ctx1 ctx2 store1 store2 Hc).
    destruct (initEngine ctx2 store1 store2) as [e|err].
    + intros H.
      apply (IH _ (set_Engines ctx2 (Engines ctx2 ++ [e]))) in H;
        [|exact Hc].
      destruct H as [engines [-> H]]. exists (e :: engines).
      cbn [Engines set_Engines] in *. rewrite <- !app_assoc in *.
      split; [reflexivity|exact H].
    + intros [= <- <-]. exists [].
      split; [apply Hid|now rewrite <- Hid].
Qed.

(** When the loop ends without error, one engine was appended per match,
    each made by [initEngine] from the second and third string of its
    match. *)
Lemma Init_stores_engines (specs : list (list gostring)) :
  forall ctx c1 : Context,
    Init_stores ctx specs = (c1, None) ->
    exists engines,
      c1 = set_Engines ctx (Engines ctx ++ engines) /\
      Forall2 (fun (spec : list gostring) (e : engine.Engine) =>
                 exists full attrs location term,
                   spec = [full; attrs; location; term] /\
                   initEngine ctx attrs location = inl e)
              specs engines.
Proof.
  induction specs as [|store specs IH]; intros ctx c1; cbn [Init_stores].
  - intros [= <-]. exists []. split; [|constructor].
    rewrite app_nil_r. now destruct ctx.
  - destruct (negb (length store =? 4)) eqn:E4.
    { destruct (nth_error store 0); discriminate. }
    destruct store as [|full [|attrs [|location [|term [|? ?]]]]];
      try discriminate. cbn [nth_error].
    destruct (initEngine ctx attrs location) as [e|err] eqn:Ee;
      [|discriminate].
    intros H. apply IH in H. destruct H as [engines [-> HF]].
    exists (e :: engines). cbn [Engines set_Engines]. split.
    + now rewrite <- app_assoc.
    + constructor.
      * now exists full, attrs, location, term.
      * eapply Forall2_impl; [|exact HF].
        intros spec e' [f [a [l [t [Hs He]]]]]. exists f, a, l, t.
        split; [exact Hs|]. rewrite <- He. now apply initEngine_ext.
Qed.

(** On matches of four strings the only error of the loop is the one that
    wraps the error of [initEngine]. *)
Lemma Init_stores_error (specs : list (list gostring)) :
  Forall (fun m : list gostring => length m = 4) specs ->
  forall (ctx c1 : Context) (err : error),
    Init_stores ctx specs = (c1, Some err) ->
    exists store0, err = ErrUnableToInitEngine store0 ErrZeroCapacity.
Proof.
  induction 1 as [|store specs Hlen _ IH]; intros ctx c1 err;
    cbn [Init_stores]; [discriminate|].
  rewrite Hlen. cbn [Nat.eqb negb].
  destruct store as [|full [|attrs [|location [|term [|? ?]]]]];
    try discriminate. cbn [nth_error].
  destruct (initEngine ctx attrs location) as [e|err'] eqn:Ee.
  - apply IH.
  - intros [= <- <-]. exists full. f_equal. eapply initEngine_error, Ee.
Qed.

(** C9: for every [Stores] input each match of the pattern has exactly four
    strings, the whole match and the three groups, so the store-spec phase
    never takes the branch of [len(store) != 4]: [Init] returns neither the
    "unable to parse attributes and path" error nor an index panic. *)
Theorem storeSpecs_have_four_strings (ctx : Context) :
  Forall (fun store : list gostring => length store = 4)
         (regexp.FindAllStringSubmatch storesRE (Stores ctx) (-1)) /\
  (forall store0, snd (Init ctx) <> Some (ErrUnableToParseStore store0)) /\
  snd (Init ctx) <> Some PanicIndexOutOfRange.
Proof.
  pose proof (FindAllStringSubmatch_length storesRE (Stores ctx) (-1)) as H4.
  change (1 + regexp.NumSubexp storesRE) with 4 in H4.
  split; [exact H4|].
  assert (Herr : forall err, snd (Init ctx) = Some err ->
                   (exists s, err = ErrInvalidEngines s) \/
                   (exists s, err = ErrUnableToInitEngine s ErrZeroCapacity) \/
                   (exists m, err = ErrCollaborator m) \/
                   err = ErrNoGossipAddresses).
  { intros err. unfold Init, Init_storeSpecs.
    destruct (length (regexp.FindAllStringSubmatch storesRE (Stores ctx) (-1))
              =? 0).
    { intros [= <-]. left. now eexists. }
    destruct (Init_stores (set_Engines ctx [])
                (regexp.FindAllStringSubmatch storesRE (Stores ctx) (-1)))
      as [c1 [e|]] eqn:Es.
    { intros [= <-]. right. left. eapply Init_stores_error; eassumption. }
    set (c2 := set_NodeAttributes c1 _).
    assert (Hp : forall addresses acc rs e,
               parseGossipBootstrapResolvers_loop c2 addresses acc
               = (rs, Some e) -> exists m, e = ErrCollaborator m).
    { induction addresses as [|a addresses IHa]; intros acc rs e; simpl;
        [discriminate|].
      destruct (length a =? 0); [apply IHa|].
      destruct (NewResolver _); [apply IHa|].
      intros [= _ <-]. now eexists. }
    unfold parseGossipBootstrapResolvers.
    destruct (parseGossipBootstrapResolvers_loop c2 _ []) as [rs [e|]] eqn:Ep.
    { intros [= <-]. right. right. left. eapply Hp, Ep. }
    destruct (length rs =? 0); [|discriminate].
    intros [= <-]. now repeat right. }
  split.
  - intros store0 H. apply Herr in H.
    destruct H as [[s H]|[[s H]|[[m H]|H]]]; discriminate.
  - intros H. apply Herr in H.
    destruct H as [[s H]|[[s H]|[[m H]|H]]]; discriminate.
Qed.

(** C1: when the store-spec phase of [Init] succeeds on N matches of the
    pattern, [Engines] holds exactly N engines in the order of the matches,
    the i-th made by [initEngine] from the attribute and location strings
    that the i-th match captured (its second and third string, the
    substrings of [Stores] that [scanned] delimits); the later phases of
    [Init] leave them in place. *)
Theorem Init_engines_from_matches (ctx c1 : Context) :
  Init_storeSpecs ctx = (c1, None) ->
  let storeSpecs :=
    regexp.FindAllStringSubmatch storesRE (Stores ctx) (-1) in
  length (Engines c1) = length storeSpecs /\
  Forall2 (fun (store : list gostring) (e : engine.Engine) =>
             exists full attrs location term,
               store = [full; attrs; location; term] /\
               initEngine ctx attrs location = inl e)
          storeSpecs (Engines c1) /\
  scanned (Stores ctx) storeSpecs /\
  Engines (fst (Init ctx)) = Engines c1.
Proof.
  intros H storeSpecs. assert (H' := H). unfold Init_storeSpecs in H'.
  fold storeSpecs in H'.
  destruct (length storeSpecs =? 0); [discriminate|].
  apply Init_stores_engines in H'. destruct H' as [engines [-> HF]].
  cbn [Engines set_Engines app] in *.
  assert (HF' : Forall2
                  (fun (store : list gostring) (e : engine.Engine) =>
                     exists full attrs location term,
                       store = [full; attrs; location; term] /\
                       initEngine ctx attrs location = inl e)
                  storeSpecs engines).
  { eapply Forall2_impl; [|exact HF].
    intros store e [f [a [l [t [Hs He]]]]]. exists f, a, l, t.
    split; [exact Hs|]. rewrite <- He. now apply initEngine_ext. }
  split; [symmetry; eapply Forall2_length; exact HF'|].
  split; [exact HF'|]. split; [apply FindAllStringSubmatch_scanned|].
  unfold Init. rewrite H.
  destruct (parseGossipBootstrapResolvers _) as [rs [e|]]; [reflexivity|].
  destruct (length rs =? 0); reflexivity.
Qed.



(** ** Context.Init as a whole *)

Lemma parseGossipBootstrapResolvers_loop_ext (ctx1 ctx2 : Context)
    (addresses : list gostring) (acc : list Resolver) :
  Addr ctx1 = Addr ctx2 ->
  parseGossipBootstrapResolvers_loop ctx1 addresses acc
  = parseGossipBootstrapResolvers_loop ctx2 addresses acc.
Proof.
  intros HA. revert acc. induction addresses as [|a addresses IH];
    intros acc; simpl; [reflexivity|].
  rewrite HA. destruct (length a =? 0); [apply IH|].
  destruct (NewResolver _); [apply IH|reflexivity].
Qed.

(** The parse reads the context through [Addr] and [GossipBootstrap]
    alone. *)
Lemma parseGossipBootstrapResolvers_ext (ctx1 ctx2 : Context) :
  Addr ctx1 = Addr ctx2 -> GossipBootstrap ctx1 = GossipBootstrap ctx2 ->
  parseGossipBootstrapResolvers ctx1 = parseGossipBootstrapResolvers ctx2.
Proof.
  intros HA HG. unfold parseGossipBootstrapResolvers. rewrite HG.
  now apply parseGossipBootstrapResolvers_loop_ext.
Qed.

(** The result of the store-spec phase: the input context or the context
    with fresh engines. *)
Lemma Init_storeSpecs_frame (ctx c1 : Context) (r : option error) :
  Init_storeSpecs ctx = (c1, r) ->
  c1 = ctx \/ exists engines, c1 = set_Engines ctx engines.
Proof.
  unfold Init_storeSpecs.
  destruct (length _ =? 0); [intros [= <- _]; now left|].
  intros H. right.
  apply (@Init_stores_ext _ (set_Engines ctx []) (set_Engines ctx []) _ _
           eq_refl) in H.
  destruct H as [engines [-> _]]. now exists ([] ++ engines).
Qed.

(** C10: whenever [Init] returns an error, [GossipBootstrapResolvers] is what
    it was before the call. *)
Theorem Init_error_keeps_resolvers (ctx ctx' : Context) (err : error) :
  Init ctx = (ctx', Some err) ->
  GossipBootstrapResolvers ctx' = GossipBootstrapResolvers ctx.
Proof.
  unfold Init.
  destruct (Init_storeSpecs ctx) as [c1 r] eqn:Es.
  apply Init_storeSpecs_frame in Es.
  assert (Hc1 : GossipBootstrapResolvers c1 = GossipBootstrapResolvers ctx)
    by (destruct Es as [-> | [engines ->]]; reflexivity).
  destruct r as [e|]; [now intros [= <- _]|].
  destruct (parseGossipBootstrapResolvers _) as [rs [e|]];
    [now intros [= <- _]|].
  destruct (length rs =? 0); [now intros [= <- _]|discriminate].
Qed.

(** What a successful [Init] has done. *)
Lemma Init_success (ctx ctx1 : Context) :
  Init ctx = (ctx1, None) ->
  exists engines resolvers,
    Init_stores (set_Engines ctx [])
                (regexp.FindAllStringSubmatch storesRE (Stores ctx) (-1))
    = (set_Engines ctx engines, None) /\
    (length (regexp.FindAllStringSubmatch storesRE (Stores ctx) (-1)) =? 0)
    = false /\
    length engines
    = length (regexp.FindAllStringSubmatch storesRE (Stores ctx) (-1)) /\
    parseGossipBootstrapResolvers ctx = (resolvers, None) /\
    (length resolvers =? 0) = false /\
    ctx1 = set_GossipBootstrapResolvers
             (set_NodeAttributes (set_Engines ctx engines)
                                 (parseAttributes (Attrs ctx)))
             resolvers.
Proof.
  unfold Init.
  destruct (Init_storeSpecs ctx) as [c1 [e|]] eqn:Es; [discriminate|].
  unfold Init_storeSpecs in Es.
  destruct (length (regexp.FindAllStringSubmatch storesRE (Stores ctx) (-1))
            =? 0) eqn:E0; [discriminate|].
  assert (Es' := Es). apply Init_stores_engines in Es'.
  destruct Es' as [engines [-> HF]]. apply Forall2_length in HF.
  cbn [Engines set_Engines app] in *.
  rewrite (@parseGossipBootstrapResolvers_ext _ ctx) by reflexivity.
  destruct (parseGossipBootstrapResolvers ctx) as [rs [e|]] eqn:Ep;
    [discriminate|].
  destruct (length rs =? 0) eqn:Er; [discriminate|].
  intros [= <-]. exists engines, rs.
  change (set_Engines (set_Engines ctx []) engines)
    with (set_Engines ctx engines) in Es.
  repeat split; auto.
Qed.

(** C8: a second [Init] on the context that a successful [Init] left, the
    configuration unchanged, succeeds too and derives the same output: the
    same engines (number, kinds, attributes, locations and capacities), the
    same node attributes and as many resolvers; the engines are one per
    match of the pattern, not accumulated over the two calls. *)
Theorem Init_twice_same_output (ctx ctx1 : Context) :
  Init ctx = (ctx1, None) ->
  snd (Init ctx1) = None /\
  Engines (fst (Init ctx1)) = Engines ctx1 /\
  map engine.isInMem (Engines (fst (Init ctx1)))
  = map engine.isInMem (Engines ctx1) /\
  NodeAttributes (fst (Init ctx1)) = NodeAttributes ctx1 /\
  length (GossipBootstrapResolvers (fst (Init ctx1)))
  = length (GossipBootstrapResolvers ctx1) /\
  length (Engines (fst (Init ctx1)))
  = length (regexp.FindAllStringSubmatch storesRE (Stores ctx1) (-1)).
Proof.
  intros H. apply Init_success in H.
  destruct H as [engines [rs [Hs [H0 [Hlen [Hp [Hr ->]]]]]]].
  set (ctx1 := set_GossipBootstrapResolvers _ rs).
  assert (Hinit : Init ctx1 = (ctx1, None)).
  { unfold Init, Init_storeSpecs.
    change (Stores ctx1) with (Stores ctx). rewrite H0.
    apply (@Init_stores_ext _ (set_Engines ctx []) (set_Engines ctx1 []) _ _
             eq_refl) in Hs.
    destruct Hs as [engines' [He' Hs]]. rewrite Hs.
    assert (engines' = engines) as ->.
    { apply (f_equal Engines) in He'. cbn [Engines set_Engines app] in He'.
      now symmetry. }
    cbn [Engines set_Engines app].
    rewrite (@parseGossipBootstrapResolvers_ext _ ctx) by reflexivity.
    rewrite Hp, Hr. reflexivity. }
  rewrite Hinit. cbn [fst snd]. repeat split; try reflexivity.
  exact Hlen.
Qed.

(** ** parseGossipBootstrapResolvers *)

(** The loop skips the empty tokens, resolves every other token as
    [resolvedAddress] gives it, and returns all the resolvers or none. *)
Lemma parseGossipBootstrapResolvers_loop_resolveAll (ctx : Context)
    (addresses : list gostring) (acc : list Resolver) :
  parseGossipBootstrapResolvers_loop ctx addresses acc
  = match resolveAll (map (resolvedAddress ctx)
                          (filter (fun t => negb (length t =? 0)) addresses))
    with
    | (resolvers, None) => (acc ++ resolvers, None)
    | (_, Some err) => ([], Some err)
    end.
Proof.
  revert acc. induction addresses as [|a addresses IH]; intros acc;
    cbn [parseGossipBootstrapResolvers_loop filter].
  - simpl. now rewrite app_nil_r.
  - destruct (length a =? 0); cbn [negb]; [apply IH|].
    cbn [map resolveAll]. fold (resolvedAddress ctx a).
    destruct (NewResolver (resolvedAddress ctx a)) as [r|msg];
      [|reflexivity].
    rewrite IH.
    destruct (resolveAll _) as [rs [e|]]; [reflexivity|].
    now rewrite <- app_assoc.
Qed.

Lemma resolveAll_error (addresses : list gostring) (a msg : gostring) :
  In a addresses -> NewResolver a = inr msg ->
  exists err, resolveAll addresses = ([], Some err).
Proof.
  induction addresses as [|b addresses IH]; intros Hin Hr; [destruct Hin|].
  cbn [resolveAll]. destruct (NewResolver b) as [r|m] eqn:Eb;
    [|now eexists].
  destruct Hin as [-> | Hin]; [congruence|].
  destruct (IH Hin Hr) as [err ->]. now eexists.
Qed.

Lemma resolveAll_no_partial (addresses : list gostring)
    (resolvers : list Resolver) (err : error) :
  resolveAll addresses = (resolvers, Some err) -> resolvers = [].
Proof.
  destruct addresses as [|a addresses]; cbn [resolveAll]; [discriminate|].
  destruct (NewResolver a); [|now intros [= <- _]].
  destruct (resolveAll addresses) as [rs [e|]]; [now intros [= <- _]|].
  discriminate.
Qed.

Lemma parseGossipBootstrapResolvers_resolveAll (ctx : Context) :
  parseGossipBootstrapResolvers ctx
  = resolveAll (map (resolvedAddress ctx)
                    (filter (fun t => negb (length t =? 0))
                            (strings.Split (GossipBootstrap ctx) ","%char))).
Proof.
  unfold parseGossipBootstrapResolvers.
  rewrite parseGossipBootstrapResolvers_loop_resolveAll.
  destruct (resolveAll _) as [rs [e|]] eqn:E; [|reflexivity].
  now rewrite (resolveAll_no_partial _ E).
Qed.

(** The errors of the store-spec phase are configuration errors. *)
Lemma Init_storeSpecs_error (ctx c1 : Context) (err : error) :
  Init_storeSpecs ctx = (c1, Some err) -> isConfigurationError err = true.
Proof.
  pose proof (FindAllStringSubmatch_length storesRE (Stores ctx) (-1)) as H4.
  change (1 + regexp.NumSubexp storesRE) with 4 in H4.
  unfold Init_storeSpecs. destruct (length _ =? 0); [now intros [= _ <-]|].
  intros H. apply (Init_stores_error H4) in H. now destruct H as [s0 ->].
Qed.

(** C4: the parse of the bootstrap list is all or nothing.  If a non-empty
    token does not resolve, [parseGossipBootstrapResolvers] returns an error
    and the nil list; and when the parse yields no resolver, [Init] returns
    an error, a configuration error when the parse itself did not fail.  The
    empty bootstrap string yields no resolver and no error. *)
Theorem gossip_bootstrap_all_or_nothing (ctx : Context) :
  (forall token msg,
      In token (strings.Split (GossipBootstrap ctx) ","%char) ->
      token <> [] ->
      NewResolver (resolvedAddress ctx token) = inr msg ->
      exists err, parseGossipBootstrapResolvers ctx = ([], Some err)) /\
  (forall resolvers err,
      parseGossipBootstrapResolvers ctx = (resolvers, Some err) ->
      resolvers = []) /\
  (fst (parseGossipBootstrapResolvers ctx) = [] ->
   exists err,
     snd (Init ctx) = Some err /\
     (snd (parseGossipBootstrapResolvers ctx) = None ->
      isConfigurationError err = true)) /\
  (GossipBootstrap ctx = [] ->
   parseGossipBootstrapResolvers ctx = ([], None)).
Proof.
  split; [|split; [|split]].
  - intros token msg Hin Hne Hr.
    rewrite parseGossipBootstrapResolvers_resolveAll.
    eapply resolveAll_error; [|exact Hr].
    apply in_map, filter_In. split; [exact Hin|].
    destruct token; [congruence|reflexivity].
  - intros resolvers err.
    rewrite parseGossipBootstrapResolvers_resolveAll.
    apply resolveAll_no_partial.
  - intros Hnil. unfold Init.
    destruct (Init_storeSpecs ctx) as [c1 [e|]] eqn:Es.
    + exists e. split; [reflexivity|]. intros _.
      eapply Init_storeSpecs_error, Es.
    + apply Init_storeSpecs_frame in Es.
      rewrite (@parseGossipBootstrapResolvers_ext _ ctx)
        by (destruct Es as [-> | [engines ->]]; reflexivity).
      destruct (parseGossipBootstrapResolvers ctx) as [rs [e|]].
      * exists e. split; [reflexivity|discriminate].
      * simpl in Hnil. subst rs. now exists ErrNoGossipAddresses.
  - unfold parseGossipBootstrapResolvers. now intros ->.
Qed.

(** ** GetHTTPClient *)


(** ** Further properties of initEngine *)

Lemma ParseUint_succeeds_iff (path : gostring) :
  snd (strconv.ParseUint path 10 64) = None
  <-> exists v, strconv.decimal_value path = Some v /\ (v < 2 ^ 64)%Z.
Proof.
  split.
  - destruct (strconv.ParseUint path 10 64) as [m [e|]] eqn:E;
      [discriminate|]. intros _. exists m. now apply ParseUint_decimal.
  - intros [v H]. apply ParseUint_decimal in H. now rewrite H.
Qed.

(** X1: [initEngine] fails exactly on the locations that are decimal numerals
    of value zero ("0", "00", ...), and its only error is the zero-capacity
    error. *)
Theorem initEngine_fails_iff_zero (ctx : Context) (attrsStr path : gostring) :
  (forall err, initEngine ctx attrsStr path = inr err ->
               err = ErrZeroCapacity) /\
  (initEngine ctx attrsStr path = inr ErrZeroCapacity
   <-> strconv.decimal_value path = Some 0%Z).
Proof.
  split; [apply initEngine_error|]. split.
  - unfold initEngine.
    destruct (strconv.ParseUint path 10 64) as [size [e|]] eqn:E;
      [discriminate|].
    destruct (size =? 0)%Z eqn:E0; [|discriminate]. intros _.
    apply Z.eqb_eq in E0. subst size. now apply ParseUint_decimal in E.
  - intros H.
    assert (Hp : strconv.ParseUint path 10 64 = (0%Z, None))
      by (apply ParseUint_decimal; split; [exact H|reflexivity]).
    now rewrite (initEngine_parsed _ _ _ Hp).
Qed.

(** X2: a location that is a decimal numeral of value between 1 and 2^63-1
    gives an in-memory engine of exactly that capacity, with the parsed
    attributes. *)
Theorem initEngine_in_memory_capacity (ctx : Context)
    (attrsStr path : gostring) (size : Z) :
  strconv.decimal_value path = Some size ->
  (1 <= size < 2 ^ 63)%Z ->
  initEngine ctx attrsStr path
  = inl (engine.InMem (parseAttributes attrsStr) size).
Proof.
  intros H Hs. apply initEngine_in_memory; [|exact Hs].
  apply ParseUint_decimal. split; [exact H|].
  change (2 ^ 64)%Z with 18446744073709551616%Z.
  change (2 ^ 63)%Z with 9223372036854775808%Z in Hs. lia.
Qed.

(** X3: [initEngine] gives a disk-backed engine, on the location as
    directory and with the cache size of the context, exactly when the
    location is not a decimal numeral below 2^64; a numeral of 2^64 or more
    is taken for a path. *)
Theorem initEngine_disk_backed_iff (ctx : Context)
    (attrsStr path : gostring) :
  initEngine ctx attrsStr path
  = inl (engine.RocksDB (parseAttributes attrsStr) path (CacheSize ctx))
  <-> (forall v, strconv.decimal_value path = Some v -> (2 ^ 64 <= v)%Z).
Proof.
  split.
  - intros H v Hv.
    destruct (Z_lt_le_dec v (2 ^ 64)) as [Hlt|Hge]; [|exact Hge].
    exfalso.
    assert (Hp : strconv.ParseUint path 10 64 = (v, None))
      by (apply ParseUint_decimal; now split).
    rewrite (initEngine_parsed _ _ _ Hp) in H.
    destruct (v =? 0)%Z; discriminate.
  - intros H. apply initEngine_path. intros Hn.
    apply ParseUint_succeeds_iff in Hn. destruct Hn as [v [Hv Hlt]].
    apply H in Hv. lia.
Qed.

(** ** Further properties of Context.Init *)

Lemma Init_stores_first_failure (pre : list (list gostring)) :
  forall (ctx : Context) (engines : list engine.Engine)
         (post : list (list gostring))
         (full attrs location term : gostring) (err : error),
    Forall2 (fun (store : list gostring) (e : engine.Engine) =>
               exists f a l t,
                 store = [f; a; l; t] /\ initEngine ctx a l = inl e)
            pre engines ->
    initEngine ctx attrs location = inr err ->
    Init_stores ctx (pre ++ [full; attrs; location; term] :: post)
    = (set_Engines ctx (Engines ctx ++ engines),
       Some (ErrUnableToInitEngine full err)).
Proof.
  induction pre as [|store pre IH];
    intros ctx engines post full attrs location term err HF Hbad.
  - inversion HF; subst. cbn [app Init_stores length Nat.eqb negb nth_error].
    rewrite Hbad, app_nil_r. now destruct ctx.
  - inversion HF as [|? e ? engines' [f [a [l [t [-> He]]]]] HF']; subst.
    cbn [app Init_stores length Nat.eqb negb nth_error]. rewrite He.
    rewrite (IH (set_Engines ctx (Engines ctx ++ [e])) engines' post
                full attrs location term err).
    + cbn [Engines set_Engines]. now rewrite <- app_assoc.
    + eapply Forall2_impl; [|exact HF'].
      intros store' e' [f' [a' [l' [t' [Hs He']]]]]. exists f', a', l', t'.
      split; [exact Hs|]. rewrite <- He'. now apply initEngine_ext.
    + rewrite <- Hbad. now apply initEngine_ext.
Qed.

(** X4: [Init] stops at the first match whose engine cannot be made: the
    engines of the matches before it are in [Engines], none of the matches
    after it is looked at, and the error names the failing match. *)
Theorem Init_stops_at_first_failing_store (ctx : Context)
    (pre post : list (list gostring)) (engines : list engine.Engine)
    (full attrs location term : gostring) (err : error) :
  regexp.FindAllStringSubmatch storesRE (Stores ctx) (-1)
  = pre ++ [full; attrs; location; term] :: post ->
  Forall2 (fun (store : list gostring) (e : engine.Engine) =>
             exists f a l t,
               store = [f; a; l; t] /\ initEngine ctx a l = inl e)
          pre engines ->
  initEngine ctx attrs location = inr err ->
  Init ctx
  = (set_Engines ctx engines, Some (ErrUnableToInitEngine full err)).
Proof.
  intros Hspecs HF Hbad. unfold Init, Init_storeSpecs. rewrite Hspecs.
  replace (length (pre ++ [full; attrs; location; term] :: post) =? 0)
    with false
    by (symmetry; apply Nat.eqb_neq; rewrite length_app; simpl; lia).
  rewrite (@Init_stores_first_failure pre (set_Engines ctx []) engines post
             full attrs location term err).
  - reflexivity.
  - eapply Forall2_impl; [|exact HF].
    intros store' e' [f' [a' [l' [t' [Hs He']]]]]. exists f', a', l', t'.
    split; [exact Hs|]. rewrite <- He'. now apply initEngine_ext.
  - rewrite <- Hbad. now apply initEngine_ext.
Qed.

Lemma Init_stores_error_In (specs : list (list gostring)) :
  Forall (fun m : list gostring => length m = 4) specs ->
  forall (ctx c1 : Context) (err : error),
    Init_stores ctx specs = (c1, Some err) ->
    exists store,
      In store specs /\
      err = ErrUnableToInitEngine (nth 0 store []) ErrZeroCapacity /\
      initEngine ctx (nth 1 store []) (nth 2 store []) = inr ErrZeroCapacity.
Proof.
  induction 1 as [|store specs Hlen _ IH]; intros ctx c1 err;
    cbn [Init_stores]; [discriminate|].
  rewrite Hlen. cbn [Nat.eqb negb].
  destruct store as [|full [|attrs [|location [|term [|? ?]]]]];
    try discriminate. cbn [nth_error].
  destruct (initEngine ctx attrs location) as [e|err'] eqn:Ee.
  - intros H. apply IH in H. destruct H as [store [Hin [Herr Hi]]].
    exists store. split; [now right|]. split; [exact Herr|].
    rewrite <- Hi. now apply initEngine_ext.
  - intros [= <- <-]. exists [full; attrs; location; term].
    split; [now left|]. pose proof (initEngine_error _ _ _ Ee) as ->.
    split; [reflexivity|exact Ee].
Qed.

Lemma resolveAll_error_In (addresses : list gostring)
    (resolvers : list Resolver) (err : error) :
  resolveAll addresses = (resolvers, Some err) ->
  exists address msg,
    In address addresses /\ NewResolver address = inr msg /\
    err = ErrCollaborator msg.
Proof.
  revert resolvers. induction addresses as [|a addresses IH];
    intros resolvers; cbn [resolveAll]; [discriminate|].
  destruct (NewResolver a) as [r|msg] eqn:Ea.
  - destruct (resolveAll addresses) as [rs [e|]] eqn:Er; [|discriminate].
    intros [= _ <-]. destruct (IH rs eq_refl) as [b [m [Hin [Hb He]]]].
    exists b, m. split; [now right|now split].
  - intros [= _ <-]. exists a, msg. split; [now left|now split].
Qed.

(** X5: every error that [Init] returns is of one of four kinds: no match
    of the pattern in [Stores]; a match whose location is a zero capacity,
    named by its whole text; the error of [gossip.NewResolver] on a non-empty
    token of the bootstrap list; or no gossip address at all. *)
Theorem Init_error_kinds (ctx : Context) (err : error) :
  snd (Init ctx) = Some err ->
  (err = ErrInvalidEngines (Stores ctx) /\ ~ hasStoreSpec (Stores ctx)) \/
  (exists store,
      In store (regexp.FindAllStringSubmatch storesRE (Stores ctx) (-1)) /\
      err = ErrUnableToInitEngine (nth 0 store []) ErrZeroCapacity /\
      initEngine ctx (nth 1 store []) (nth 2 store [])
      = inr ErrZeroCapacity) \/
  (exists token msg,
      In token (strings.Split (GossipBootstrap ctx) ","%char) /\
      token <> [] /\
      NewResolver (resolvedAddress ctx token) = inr msg /\
      err = ErrCollaborator msg) \/
  (err = ErrNoGossipAddresses /\
   parseGossipBootstrapResolvers ctx = ([], None)).
Proof.
  pose proof (FindAllStringSubmatch_scanned (Stores ctx)) as Hsc.
  pose proof (FindAllStringSubmatch_length storesRE (Stores ctx) (-1)) as H4.
  change (1 + regexp.NumSubexp storesRE) with 4 in H4.
  unfold Init, Init_storeSpecs.
  destruct (regexp.FindAllStringSubmatch storesRE (Stores ctx) (-1))
    as [|store specs] eqn:Ef.
  { cbn. intros [= <-]. left. split; [reflexivity|].
    now apply (scanned_nil_iff Hsc). }
  cbn [length Nat.eqb].
  destruct (Init_stores (set_Engines ctx []) (store :: specs))
    as [c1 [e|]] eqn:Es.
  { cbn. intros [= <-]. right. left.
    apply (Init_stores_error_In H4) in Es.
    destruct Es as [st [Hin [He Hi]]]. exists st.
    split; [exact Hin|]. split; [exact He|].
    rewrite <- Hi. now apply initEngine_ext. }
  apply (@Init_stores_ext _ (set_Engines ctx []) (set_Engines ctx []) _ _
           eq_refl) in Es.
  destruct Es as [engines [-> _]].
  rewrite (@parseGossipBootstrapResolvers_ext _ ctx) by reflexivity.
  destruct (parseGossipBootstrapResolvers ctx) as [rs [e|]] eqn:Ep.
  - cbn. intros [= <-]. right. right. left.
    rewrite parseGossipBootstrapResolvers_resolveAll in Ep.
    apply resolveAll_error_In in Ep.
    destruct Ep as [address [msg [Hin [Hr He]]]].
    apply in_map_iff in Hin. destruct Hin as [token [<- Hin]].
    apply filter_In in Hin. destruct Hin as [Hin Hne].
    exists token, msg. split; [exact Hin|]. split; [|now split].
    intros ->. discriminate.
  - destruct (length rs =? 0) eqn:El; [|discriminate].
    cbn. intros [= <-]. right. right. right. split; [reflexivity|].
    destruct rs; [reflexivity|discriminate].
Qed.

(** What [Init] does to a context is a choice of assignments to the derived
    fields and a result, fixed by the configuration. *)
Lemma Init_derive (ctx : Context) :
  exists oe oa ors r,
    (forall x, sameConfiguration ctx x ->
               Init x = (derive oe oa ors x, r)) /\
    (r = None -> exists e a rs, oe = Some e /\ oa = Some a /\ ors = Some rs).
Proof.
  destruct (length (regexp.FindAllStringSubmatch storesRE (Stores ctx) (-1))
            =? 0) eqn:E0.
  { exists None, None, None, (Some (ErrInvalidEngines (Stores ctx))).
    split; [|discriminate].
    intros x [_ [HS _]]. unfold Init, Init_storeSpecs.
    now rewrite <- HS, E0. }
  destruct (Init_stores (set_Engines ctx [])
              (regexp.FindAllStringSubmatch storesRE (Stores ctx) (-1)))
    as [c1 r1] eqn:Es.
  assert (Hx : forall x, sameConfiguration ctx x ->
             Init_storeSpecs x = (set_Engines x (Engines c1), r1)).
  { intros x [_ [HS [_ [_ HC]]]]. unfold Init_storeSpecs.
    rewrite <- HS, E0.
    apply (@Init_stores_ext _ (set_Engines ctx []) (set_Engines x []) _ _
             HC) in Es.
    destruct Es as [engines [-> Hs]]. rewrite Hs. reflexivity. }
  destruct r1 as [e|].
  { exists (Some (Engines c1)), None, None, (Some e).
    split; [|discriminate].
    intros x Hsame. unfold Init. now rewrite (Hx x Hsame). }
  destruct (parseGossipBootstrapResolvers ctx) as [rs [e|]] eqn:Ep.
  { exists (Some (Engines c1)), (Some (parseAttributes (Attrs ctx))), None,
           (Some e).
    split; [|discriminate].
    intros x Hsame. unfold Init. rewrite (Hx x Hsame).
    destruct Hsame as [HA [_ [HT [HG _]]]].
    rewrite (@parseGossipBootstrapResolvers_ext _ ctx)
      by (symmetry; assumption).
    rewrite Ep. cbn [Attrs set_Engines]. now rewrite <- HT. }
  destruct (length rs =? 0) eqn:El.
  { exists (Some (Engines c1)), (Some (parseAttributes (Attrs ctx))), None,
           (Some ErrNoGossipAddresses).
    split; [|discriminate].
    intros x Hsame. unfold Init. rewrite (Hx x Hsame).
    destruct Hsame as [HA [_ [HT [HG _]]]].
    rewrite (@parseGossipBootstrapResolvers_ext _ ctx)
      by (symmetry; assumption).
    rewrite Ep, El. cbn [Attrs set_Engines]. now rewrite <- HT. }
  exists (Some (Engines c1)), (Some (parseAttributes (Attrs ctx))), (Some rs),
         None.
  split; [|intros _; now eexists _, _, _].
  intros x Hsame. unfold Init. rewrite (Hx x Hsame).
  destruct Hsame as [HA [_ [HT [HG _]]]].
  rewrite (@parseGossipBootstrapResolvers_ext _ ctx)
    by (symmetry; assumption).
  rewrite Ep, El. cbn [Attrs set_Engines]. now rewrite <- HT.
Qed.

Lemma sameConfiguration_refl (ctx : Context) : sameConfiguration ctx ctx.
Proof. repeat split. Qed.

Lemma sameConfiguration_derive (ctx : Context)
    (oe : option (list engine.Engine)) (oa : option proto.Attributes)
    (ors : option (list Resolver)) :
  sameConfiguration ctx (derive oe oa ors ctx).
Proof. destruct oe, oa, ors; repeat split. Qed.

(** X6: [Init] changes nothing but the three derived fields: the
    configuration and the cached HTTP client are as before, whatever the
    result. *)
Theorem Init_keeps_configuration (ctx : Context) :
  Addr (fst (Init ctx)) = Addr ctx /\
  Certs (fst (Init ctx)) = Certs ctx /\
  Stores (fst (Init ctx)) = Stores ctx /\
  Attrs (fst (Init ctx)) = Attrs ctx /\
  MaxOffset (fst (Init ctx)) = MaxOffset ctx /\
  GossipBootstrap (fst (Init ctx)) = GossipBootstrap ctx /\
  GossipInterval (fst (Init ctx)) = GossipInterval ctx /\
  Linearizable (fst (Init ctx)) = Linearizable ctx /\
  CacheSize (fst (Init ctx)) = CacheSize ctx /\
  ScanInterval (fst (Init ctx)) = ScanInterval ctx /\
  httpClient (fst (Init ctx)) = httpClient ctx.
Proof.
  destruct (Init_derive ctx) as [oe [oa [ors [r [H _]]]]].
  rewrite (H ctx (sameConfiguration_refl ctx)).
  destruct oe, oa, ors; repeat split.
Qed.

(** X7: [Init] is idempotent, failures included: called again on the context
    it left, it returns the same result and leaves the same context. *)
Theorem Init_idempotent (ctx : Context) :
  Init (fst (Init ctx)) = Init ctx.
Proof.
  destruct (Init_derive ctx) as [oe [oa [ors [r [H _]]]]].
  rewrite (H ctx (sameConfiguration_refl ctx)). cbn [fst].
  rewrite (H _ (sameConfiguration_derive ctx oe oa ors)).
  f_equal. destruct oe, oa, ors; reflexivity.
Qed.

(** X8: the result of [Init] depends on the configuration only, not on what
    the derived fields held before: two contexts with the same [Addr],
    [Stores], [Attrs], [GossipBootstrap] and [CacheSize] get the same error
    or, on success, the same engines, node attributes and resolvers. *)
Theorem Init_reads_configuration_only (a b : Context) :
  sameConfiguration a b ->
  snd (Init a) = snd (Init b) /\
  (snd (Init a) = None ->
   Engines (fst (Init a)) = Engines (fst (Init b)) /\
   NodeAttributes (fst (Init a)) = NodeAttributes (fst (Init b)) /\
   GossipBootstrapResolvers (fst (Init a))
   = GossipBootstrapResolvers (fst (Init b))).
Proof.
  intros Hab. destruct (Init_derive a) as [oe [oa [ors [r [H Hr]]]]].
  rewrite (H a (sameConfiguration_refl a)), (H b Hab). cbn [fst snd].
  split; [reflexivity|]. intros Hn.
  destruct (Hr Hn) as [e [at' [rs [-> [-> ->]]]]]. now repeat split.
Qed.

(** X9: when [Stores] has no match of the pattern, [Init] returns the
    invalid-engines error before it touches the context: engines of an
    earlier [Init] are still there. *)
Theorem Init_without_match_leaves_context (ctx : Context) :
  ~ hasStoreSpec (Stores ctx) ->
  Init ctx = (ctx, Some (ErrInvalidEngines (Stores ctx))).
Proof.
  intros Hn. unfold Init, Init_storeSpecs.
  pose proof (FindAllStringSubmatch_scanned (Stores ctx)) as Hsc.
  apply (scanned_nil_iff Hsc) in Hn. now rewrite Hn.
Qed.

(** X10: after a successful [Init] there is at least one engine and at least
    one resolver, the node attributes are the parsed [Attrs], and the
    resolvers are the ones the parse of the bootstrap list returned. *)
Theorem Init_success_postconditions (ctx ctx1 : Context) :
  Init ctx = (ctx1, None) ->
  Engines ctx1 <> [] /\
  GossipBootstrapResolvers ctx1 <> [] /\
  NodeAttributes ctx1 = parseAttributes (Attrs ctx) /\
  parseGossipBootstrapResolvers ctx
  = (GossipBootstrapResolvers ctx1, None).
Proof.
  intros H. apply Init_success in H.
  destruct H as [engines [rs [_ [H0 [Hlen [Hp [Hr ->]]]]]]].
  cbn [Engines NodeAttributes GossipBootstrapResolvers
       set_GossipBootstrapResolvers set_NodeAttributes set_Engines].
  split; [|split; [|split; [reflexivity|exact Hp]]].
  - intros ->. simpl in Hlen. rewrite <- Hlen in H0. discriminate.
  - intros ->. discriminate.
Qed.

(** ** Further properties of parseAttributes *)

Lemma Split_app (a b : gostring) (sep : ascii) :
  strings.Split (a ++ sep :: b) sep
  = strings.Split a sep ++ strings.Split b sep.
Proof.
  induction a as [|x a IH].
  - cbn [app]. rewrite Split_cons, Ascii.eqb_refl. reflexivity.
  - cbn [app]. rewrite !Split_cons, IH.
    destruct (Ascii.eqb x sep); [reflexivity|].
    pose proof (Split_not_nil a sep) as Hne.
    destruct (strings.Split a sep) as [|p ps]; [congruence|reflexivity].
Qed.

Lemma filter_nonempty_id (attrs : list gostring) :
  Forall (fun t : gostring => t <> []) attrs ->
  filter (fun p : gostring => negb (length p =? 0)) attrs = attrs.
Proof.
  induction 1 as [|t attrs Ht _ IH]; [reflexivity|].
  cbn [filter]. destruct t; [congruence|]. cbn. now rewrite IH.
Qed.

Lemma parseAttributes_Join_tokens (attrs : list gostring) :
  Forall (fun t : gostring => t <> [] /\ ~ In ":"%char t) attrs ->
  proto.Attrs (parseAttributes (strings.Join attrs ":"%char)) = attrs.
Proof.
  intros H. destruct attrs as [|t attrs]; [reflexivity|].
  rewrite parseAttributes_filter, Split_unique.
  - apply filter_nonempty_id. eapply Forall_impl; [|exact H]. now intros ? [].
  - discriminate.
  - eapply Forall_impl; [|exact H]. now intros ? [].
Qed.

Lemma parseAttributes_tokens (attrsStr : gostring) :
  Forall (fun t : gostring => t <> [] /\ ~ In ":"%char t)
         (proto.Attrs (parseAttributes attrsStr)).
Proof.
  rewrite parseAttributes_filter. apply Forall_forall. intros t Hin.
  apply filter_In in Hin. destruct Hin as [Hin Hne]. split.
  - intros ->. discriminate.
  - pose proof (Split_sep_free attrsStr ":"%char) as HF.
    rewrite Forall_forall in HF. now apply HF.
Qed.

(** X11: writing a list of attributes, each non-empty and without ':', as
    a colon-separated string and parsing it gives the list back. *)
Theorem parseAttributes_of_Join (attrs : list gostring) :
  Forall (fun t : gostring => t <> [] /\ ~ In ":"%char t) attrs ->
  proto.Attrs (parseAttributes (strings.Join attrs ":"%char)) = attrs.
Proof.
  intros H. destruct attrs as [|t attrs]; [reflexivity|].
  assert (Hne : Forall (fun t : gostring => t <> []) (t :: attrs))
    by (eapply Forall_impl; [|exact H]; now intros ? []).
  assert (Hfree : Forall (fun p : gostring => ~ In ":"%char p) (t :: attrs))
    by (eapply Forall_impl; [|exact H]; now intros ? []).
  rewrite parseAttributes_filter.
  rewrite Split_unique; [|discriminate|exact Hfree].
  now apply filter_nonempty_id.
Qed.

(** X12: the attributes of two strings put together with a ':' are the
    attributes of the first followed by those of the second; so a ':' at
    either end, or a doubled one, adds nothing. *)
Theorem parseAttributes_app (a b : gostring) :
  proto.Attrs (parseAttributes (a ++ ":"%char :: b))
  = proto.Attrs (parseAttributes a) ++ proto.Attrs (parseAttributes b).
Proof.
  rewrite !parseAttributes_filter.
  rewrite Split_app.
  apply filter_app.
Qed.

(** X13: every attribute that [parseAttributes] returns is non-empty and
    has no ':', and the result is a normal form: written back with ':' and
    parsed again it is the same. *)
Theorem parseAttributes_normal_form (attrsStr : gostring) :
  Forall (fun t : gostring => t <> [] /\ ~ In ":"%char t)
         (proto.Attrs (parseAttributes attrsStr)) /\
  proto.Attrs
    (parseAttributes
       (strings.Join (proto.Attrs (parseAttributes attrsStr)) ":"%char))
  = proto.Attrs (parseAttributes attrsStr).
Proof.
  split; [apply parseAttributes_tokens|].
  apply parseAttributes_Join_tokens, parseAttributes_tokens.
Qed.

(** ** Further properties of parseGossipBootstrapResolvers *)

Lemma resolveAll_success (f : gostring -> gostring) (tokens : list gostring) :
  forall resolvers,
    resolveAll (map f tokens) = (resolvers, None) ->
    Forall2 (fun token r => NewResolver (f token) = inl r) tokens resolvers.
Proof.
  induction tokens as [|t tokens IH]; intros resolvers; cbn [map resolveAll].
  - intros [= <-]. constructor.
  - destruct (NewResolver (f t)) as [r|msg] eqn:Et; [|discriminate].
    destruct (resolveAll (map f tokens)) as [rs [e|]]; [discriminate|].
    intros [= <-]. constructor; [exact Et|now apply IH].
Qed.

(** X14: a successful parse of the bootstrap list returns one resolver per
    non-empty token, in the order of the tokens, each made by
    [gossip.NewResolver] from the address the token stands for. *)
Theorem parseGossipBootstrapResolvers_one_per_token (ctx : Context)
    (resolvers : list Resolver) :
  parseGossipBootstrapResolvers ctx = (resolvers, None) ->
  Forall2 (fun token r => NewResolver (resolvedAddress ctx token) = inl r)
          (filter (fun t => negb (length t =? 0))
                  (strings.Split (GossipBootstrap ctx) ","%char))
          resolvers.
Proof.
  rewrite parseGossipBootstrapResolvers_resolveAll. apply resolveAll_success.
Qed.

Lemma parseGossipBootstrapResolvers_loop_first_error (ctx : Context)
    (pre post : list gostring) (token msg : gostring) :
  Forall (fun a => a = [] \/
                   exists r, NewResolver (resolvedAddress ctx a) = inl r) pre ->
  token <> [] ->
  NewResolver (resolvedAddress ctx token) = inr msg ->
  forall acc,
    parseGossipBootstrapResolvers_loop ctx (pre ++ token :: post) acc
    = ([], Some (ErrCollaborator msg)).
Proof.
  intros Hpre Hne Hr. induction Hpre as [|a pre Ha _ IH]; intros acc;
    cbn [app parseGossipBootstrapResolvers_loop].
  - destruct token; [congruence|]. cbn [length Nat.eqb].
    fold (resolvedAddress ctx (a :: token)). now rewrite Hr.
  - destruct a as [|x a]; [apply IH|]. cbn [length Nat.eqb].
    fold (resolvedAddress ctx (x :: a)).
    destruct Ha as [Ha|[r Ha]]; [discriminate|]. rewrite Ha. apply IH.
Qed.

(** X15: the error of the parse is the error of the leftmost token that does
    not resolve: when the tokens before it are empty or resolve, the parse
    returns that token's error and no resolver, and the tokens after it are
    not looked at. *)
Theorem parseGossipBootstrapResolvers_first_error (ctx : Context)
    (pre post : list gostring) (token msg : gostring) :
  strings.Split (GossipBootstrap ctx) ","%char = pre ++ token :: post ->
  Forall (fun a => a = [] \/
                   exists r, NewResolver (resolvedAddress ctx a) = inl r) pre ->
  token <> [] ->
  NewResolver (resolvedAddress ctx token) = inr msg ->
  parseGossipBootstrapResolvers ctx = ([], Some (ErrCollaborator msg)).
Proof.
  intros Hs Hpre Hne Hr. unfold parseGossipBootstrapResolvers. rewrite Hs.
  now apply parseGossipBootstrapResolvers_loop_first_error.
Qed.

(** ** Further properties of GetHTTPClient *)

Lemma set_httpClient_same (ctx : Context) :
  set_httpClient ctx (httpClient ctx) = ctx.
Proof. now destruct ctx. Qed.

Lemma GetHTTPClient_calls_cached (n : nat) (ctx : Context) (w : nat)
    (client : Client) :
  httpClient ctx = Some client -> GetHTTPClient_calls n ctx w = (ctx, w).
Proof.
  intros H. induction n as [|n IH]; [reflexivity|].
  cbn [GetHTTPClient_calls]. unfold GetHTTPClient. rewrite H. exact IH.
Qed.

(** X16: starting without a cached client, every call attempts a
    construction until the first attempt that returns a client; that client
    is cached and no construction is attempted afterwards.  If the attempts
    [w .. w+k-1] return no client and attempt [w+k] returns one, then after
    [n] calls [min n (k+1)] constructions were attempted. *)
Theorem GetHTTPClient_constructs_until_success (ctx : Context) (k : nat)
    (client : Client) :
  forall w : nat,
    httpClient ctx = None ->
    (forall j, j < k -> fst (NewHTTPClient (w + j) (Certs ctx)) = None) ->
    fst (NewHTTPClient (w + k) (Certs ctx)) = Some client ->
    forall n,
      GetHTTPClient_calls n ctx w
      = (if n <=? k then ctx else set_httpClient ctx (Some client),
         w + Nat.min n (S k)).
Proof.
  induction k as [|k IH]; intros w Hnone Hfail Hok n.
  - destruct n as [|n]; [cbn; now rewrite Nat.add_0_r|].
    cbn [GetHTTPClient_calls]. unfold GetHTTPClient. rewrite Hnone.
    rewrite Nat.add_0_r in Hok.
    destruct (NewHTTPClient w (Certs ctx)) as [c e]. cbn in Hok. subst c.
    rewrite (@GetHTTPClient_calls_cached n _ _ client) by reflexivity.
    cbn [Nat.leb]. f_equal. rewrite Nat.min_r by lia. lia.
  - destruct n as [|n]; [cbn; now rewrite Nat.add_0_r|].
    cbn [GetHTTPClient_calls]. unfold GetHTTPClient. rewrite Hnone.
    pose proof (Hfail 0 ltac:(lia)) as H0. rewrite Nat.add_0_r in H0.
    destruct (NewHTTPClient w (Certs ctx)) as [c e]. cbn in H0. subst c.
    assert (Hs : set_httpClient ctx None = ctx)
      by (rewrite <- Hnone; apply set_httpClient_same).
    cbn [httpClient set_httpClient]. rewrite Hs.
    rewrite (IH (S w) Hnone).
    + cbn [Nat.leb]. f_equal. cbn [Nat.min].
      destruct (Nat.min n (S k)); lia.
    + intros j Hj. specialize (Hfail (S j) ltac:(lia)).
      now rewrite Nat.add_succ_r in Hfail.
    + now rewrite Nat.add_succ_r in Hok.
Qed.

(** X17: whatever client pointer the construction returns is cached, also
    when it comes with an error: the error is returned once, and the later
    calls return the client with a nil error and construct nothing. *)
Theorem GetHTTPClient_caches_client_with_error (ctx : Context) (w : nat)
    (client : Client) (msg : gostring) :
  httpClient ctx = None ->
  NewHTTPClient w (Certs ctx) = (Some client, Some msg) ->
  GetHTTPClient ctx w
  = ((Some client, Some (ErrCollaborator msg)),
     set_httpClient ctx (Some client), S w) /\
  forall w',
    GetHTTPClient (set_httpClient ctx (Some client)) w'
    = ((Some client, None), set_httpClient ctx (Some client), w').
Proof.
  intros Hnone Hnew. unfold GetHTTPClient. rewrite Hnone, Hnew.
  split; reflexivity.
Qed.

(** X18: [GetHTTPClient] changes the [httpClient] field only, and it
    commutes with [Init]: asking for the client before or after [Init]
    gives the same client, the same [Init] result and the same context. *)
Theorem GetHTTPClient_commutes_with_Init (ctx : Context) (w : nat) :
  let '(r, c1, w1) := GetHTTPClient ctx w in
  c1 = set_httpClient ctx (httpClient c1) /\
  Init c1 = (set_httpClient (fst (Init ctx)) (httpClient c1),
             snd (Init ctx)) /\
  GetHTTPClient (fst (Init ctx)) w
  = (r, set_httpClient (fst (Init ctx)) (httpClient c1), w1).
Proof.
  assert (Hinit : forall v,
             Init (set_httpClient ctx v)
             = (set_httpClient (fst (Init ctx)) v, snd (Init ctx))).
  { intros v. destruct (Init_derive ctx) as [oe [oa [ors [r [H _]]]]].
    rewrite (H ctx (sameConfiguration_refl ctx)).
    rewrite (H (set_httpClient ctx v)) by (repeat split).
    cbn [fst snd]. f_equal. destruct oe, oa, ors; reflexivity. }
  assert (Hframe : httpClient (fst (Init ctx)) = httpClient ctx /\
                   Certs (fst (Init ctx)) = Certs ctx).
  { destruct (Init_derive ctx) as [oe [oa [ors [r [H _]]]]].
    rewrite (H ctx (sameConfiguration_refl ctx)).
    destruct oe, oa, ors; split; reflexivity. }
  destruct Hframe as [Hh Hc].
  assert (Hfix : set_httpClient (fst (Init ctx)) (httpClient ctx)
                 = fst (Init ctx))
    by (rewrite <- Hh; apply set_httpClient_same).
  unfold GetHTTPClient. rewrite Hh, Hc.
  destruct (httpClient ctx) as [client|] eqn:E.
  - split; [rewrite E, <- E; symmetry; apply set_httpClient_same|].
    rewrite E, Hfix. split; [now destruct (Init ctx)|reflexivity].
  - destruct (NewHTTPClient w (Certs ctx)) as [client err].
    cbn [httpClient set_httpClient]. split; [reflexivity|].
    split; [apply Hinit|reflexivity].
Qed.

(** ** Well-formed store lists *)

Lemma renderStores_cons (attrs location : gostring)
    (entries : list (gostring * gostring)) :
  renderStores ((attrs, location) :: entries)
  = attrs ++ "="%char :: location
      ++ (match entries with [] => [] | _ :: _ => [","%char] end)
      ++ renderStores entries.
Proof.
  destruct entries as [|[a l] entries]; cbn [renderStores app];
    [now rewrite app_nil_r|reflexivity].
Qed.

Lemma entryMatches_cons (attrs location : gostring)
    (entries : list (gostring * gostring)) :
  entryMatches ((attrs, location) :: entries)
  = [attrs ++ "="%char :: location
       ++ (match entries with [] => [] | _ :: _ => [","%char] end);
     attrs; location;
     match entries with [] => [] | _ :: _ => [","%char] end]
      :: entryMatches entries.
Proof.
  destruct entries as [|[a l] entries]; cbn [entryMatches];
    [now rewrite app_nil_r|reflexivity].
Qed.

Lemma search_matchAt (re : regexp.Regexp) (rest : gostring) (pos : nat)
    (c : regexp.caps) :
  regexp.matchAt re {| regexp.rest := rest; regexp.pos := pos |} = Some c ->
  regexp.search re rest pos = Some c.
Proof. intros H. destruct rest; cbn [regexp.search]; now rewrite H. Qed.

(** The match found at the head of a well-formed entry. *)
Lemma search_entry (a l t post : gostring) (pos : nat) :
  a <> [] -> ~ In "="%char a -> l <> [] -> ~ In ","%char l ->
  (t = [] /\ post = [] \/ t = [","%char]) ->
  regexp.search storesRE (a ++ "="%char :: l ++ t ++ post) pos
  = Some [Some (pos, pos + length a + 1 + length l + length t);
          Some (pos, pos + length a);
          Some (pos + length a + 1, pos + length a + 1 + length l);
          Some (pos + length a + 1 + length l,
                pos + length a + 1 + length l + length t)].
Proof.
  intros Ha Fa Hl Fl Ht. apply search_matchAt. rewrite matchAt_storesRE.
  unfold storeSpec_at.
  rewrite (span_prefix (notByte "=") (a := a)).
  2:{ now apply notByte_Forall. }
  2:{ right. eexists _, _. split; [reflexivity|]. now apply notByte_false. }
  destruct a as [|a0 a]; [congruence|].
  rewrite (span_prefix (notByte ",") (a := l)).
  2:{ now apply notByte_Forall. }
  2:{ destruct Ht as [[-> ->] | ->]; [now left|right].
      eexists _, _. split; [reflexivity|]. now apply notByte_false. }
  destruct l as [|l0 l]; [congruence|].
  destruct Ht as [[-> ->] | ->]; cbn [app length]; apply f_equal;
    repeat (apply (f_equal2 (@cons (option (nat * nat))));
            [apply f_equal; apply (f_equal2 (@pair nat nat)); lia|]);
    reflexivity.
Qed.

Lemma allMatches_loop_entries (entries : list (gostring * gostring)) :
  Forall wellFormedEntry entries ->
  forall (s : gostring) (fuel : nat) (pre : gostring) (pos i : nat)
         (prev : option nat),
    s = pre ++ renderStores entries -> pos = length pre -> i <= pos ->
    length (renderStores entries) + 2 <= fuel ->
    map (fun matches : regexp.caps =>
           map (fun m => match m with
                         | Some (lo, hi) => regexp.slice s lo hi
                         | None => []
                         end) matches)
        (regexp.allMatches_loop fuel storesRE s (length s + 1) pos i prev)
    = entryMatches entries.
Proof.
  induction 1 as [|[a l] entries [Ha [Fa [Hl Fl]]] _ IH];
    intros s fuel pre pos i prev Hs Hpos Hi Hf;
    (destruct fuel as [|f]; [lia|]); cbn [regexp.allMatches_loop];
    assert (Hlen : length s = length pre + length (renderStores _))
      by (rewrite Hs; apply length_app);
    (replace (i <? length s + 1) with true
      by (symmetry; apply Nat.ltb_lt; lia));
    (replace (pos <=? length s) with true
      by (symmetry; apply Nat.leb_le; lia));
    cbn [andb]; unfold regexp.doExecute.
  - replace (skipn pos s) with (@nil ascii); [reflexivity|].
    subst s pos. now rewrite skipn_app, skipn_all, Nat.sub_diag.
  - replace (skipn pos s) with (renderStores ((a, l) :: entries))
      by (subst s pos; now rewrite skipn_app, skipn_all, Nat.sub_diag).
    cbn [fst snd] in *. rewrite renderStores_cons, entryMatches_cons in *.
    set (t := match entries with [] => [] | _ :: _ => [","%char] end) in *.
    assert (Ht : t = [] /\ renderStores entries = [] \/ t = [","%char]).
    { subst t. destruct entries; [now left|now right]. }
    rewrite (search_entry pos (post := renderStores entries) Ha Fa Hl Fl Ht).
    cbn [nth map].
    assert (Hla : 1 <= length a) by (destruct a; [congruence|simpl; lia]).
    replace (pos + length a + 1 + length l + length t =? pos)
      with false by (symmetry; apply Nat.eqb_neq; lia).
    cbn [andb negb map].
    rewrite (@slice_mid s pre (a ++ "="%char :: l ++ t)
               (renderStores entries)).
    2:{ rewrite Hs. repeat (rewrite <- app_assoc; cbn [app]). reflexivity. }
    2:{ lia. }
    2:{ rewrite !length_app. cbn [length]. rewrite !length_app. lia. }
    rewrite (@slice_mid s pre a ("="%char :: l ++ t ++ renderStores entries)).
    2:{ exact Hs. }
    2:{ lia. }
    2:{ lia. }
    rewrite (@slice_mid s (pre ++ a ++ ["="%char]) l
               (t ++ renderStores entries)).
    2:{ rewrite Hs. repeat (rewrite <- app_assoc; cbn [app]). reflexivity. }
    2:{ rewrite !length_app. cbn [length]. lia. }
    2:{ rewrite !length_app. cbn [length]. lia. }
    rewrite (@slice_mid s (pre ++ a ++ "="%char :: l) t
               (renderStores entries)).
    2:{ rewrite Hs. repeat (rewrite <- app_assoc; cbn [app]). reflexivity. }
    2:{ rewrite !length_app. cbn [length]. lia. }
    2:{ rewrite !length_app. cbn [length]. lia. }
    f_equal.
    apply (IH s f (pre ++ a ++ "="%char :: l ++ t)).
    + rewrite Hs. repeat (rewrite <- app_assoc; cbn [app]). reflexivity.
    + rewrite !length_app. cbn [length]. rewrite !length_app. lia.
    + lia.
    + rewrite !length_app in Hf. cbn [length] in Hf.
      rewrite !length_app in Hf. lia.
Qed.

Lemma FindAllStringSubmatch_entries
    (entries : list (gostring * gostring)) :
  Forall wellFormedEntry entries ->
  regexp.FindAllStringSubmatch storesRE (renderStores entries) (-1)
  = entryMatches entries.
Proof.
  intros H. unfold regexp.FindAllStringSubmatch, regexp.allMatches.
  change (-1 <? 0)%Z with true. cbv iota.
  apply (@allMatches_loop_entries entries H (renderStores entries)
           (length (renderStores entries) + 2) [] 0 0 None);
    simpl; auto; lia.
Qed.

(** X19: on a list of entries [attrs=location] joined by ',', where no
    [attrs] is empty or has an '=' and no [location] is empty or has a ',',
    the pattern of [Init] finds exactly the entries, in order, each with its
    attributes and its location as second and third string.  A location may
    hold an '='. *)
Theorem storesRE_finds_the_entries (entries : list (gostring * gostring)) :
  Forall wellFormedEntry entries ->
  regexp.FindAllStringSubmatch storesRE (renderStores entries) (-1)
  = entryMatches entries.
Proof.
  intros H. unfold regexp.FindAllStringSubmatch, regexp.allMatches.
  change (-1 <? 0)%Z with true. cbv iota.
  apply (@allMatches_loop_entries entries H (renderStores entries)
           (length (renderStores entries) + 2) [] 0 0 None).
  - reflexivity.
  - reflexivity.
  - apply Nat.le_refl.
  - apply Nat.le_refl.
Qed.

Lemma Init_stores_entries (entries : list (gostring * gostring)) :
  forall (ctx : Context) (engines : list engine.Engine),
    Forall2 (fun (entry : gostring * gostring) (e : engine.Engine) =>
               initEngine ctx (fst entry) (snd entry) = inl e)
            entries engines ->
    Init_stores ctx (entryMatches entries)
    = (set_Engines ctx (Engines ctx ++ engines), None).
Proof.
  induction entries as [|[a l] entries IH]; intros ctx engines HF.
  - inversion HF; subst. cbn. rewrite app_nil_r. now destruct ctx.
  - inversion HF as [|? e ? engines' He HF']; subst. cbn [fst snd] in He.
    rewrite entryMatches_cons.
    cbn [Init_stores length Nat.eqb negb nth_error]. rewrite He.
    rewrite (IH (set_Engines ctx (Engines ctx ++ [e])) engines').
    + cbn [Engines set_Engines]. now rewrite <- app_assoc.
    + eapply Forall2_impl; [|exact HF'].
      intros entry e' He'. rewrite <- He'. now apply initEngine_ext.
Qed.

(** X20: when [Stores] is such a list of at least one entry and every
    entry's engine can be made, the store-spec phase of [Init] succeeds and
    [Engines] holds exactly the engines of the entries, in order, whatever
    it held before. *)
Theorem Init_storeSpecs_on_entries (ctx : Context)
    (entries : list (gostring * gostring)) (engines : list engine.Engine) :
  Stores ctx = renderStores entries ->
  entries <> [] ->
  Forall wellFormedEntry entries ->
  Forall2 (fun (entry : gostring * gostring) (e : engine.Engine) =>
             initEngine ctx (fst entry) (snd entry) = inl e)
          entries engines ->
  Init_storeSpecs ctx = (set_Engines ctx engines, None).
Proof.
  intros Hs Hne Hwf HF. unfold Init_storeSpecs. rewrite Hs.
  pose proof (FindAllStringSubmatch_entries Hwf) as Hm.
  rewrite Hm.
  destruct entries as [|[a l] entries]; [congruence|].
  rewrite entryMatches_cons at 1. cbn [length Nat.eqb].
  rewrite (@Init_stores_entries _ (set_Engines ctx []) engines).
  - reflexivity.
  - eapply Forall2_impl; [|exact HF].
    intros entry e' He'. rewrite <- He'. now apply initEngine_ext.
Qed.

(** ** When Init succeeds *)

Lemma Forall2_In_l (A B : Type) (R : A -> B -> Prop) (l : list A)
    (l' : list B) (x : A) :
  Forall2 R l l' -> In x l -> exists y, R x y.
Proof.
  induction 1 as [|a b l l' Hab _ IH]; intros Hin; [destruct Hin|].
  destruct Hin as [<- | Hin]; [now exists b|now apply IH].
Qed.

(** X21: [Init] succeeds exactly when [Stores] has a match of the pattern,
    no match has a zero capacity for location, and the parse of the
    bootstrap list returns at least one resolver and no error. *)
Theorem Init_succeeds_iff (ctx : Context) :
  snd (Init ctx) = None
  <-> hasStoreSpec (Stores ctx) /\
      (forall store,
          In store (regexp.FindAllStringSubmatch storesRE (Stores ctx) (-1)) ->
          initEngine ctx (nth 1 store []) (nth 2 store [])
          <> inr ErrZeroCapacity) /\
      (exists r rs, parseGossipBootstrapResolvers ctx = (r :: rs, None)).
Proof.
  pose proof (FindAllStringSubmatch_scanned (Stores ctx)) as Hsc.
  pose proof (FindAllStringSubmatch_length storesRE (Stores ctx) (-1)) as H4.
  change (1 + regexp.NumSubexp storesRE) with 4 in H4.
  split.
  - intros H. destruct (Init ctx) as [ctx1 r] eqn:Ei. cbn in H. subst r.
    apply Init_success in Ei.
    destruct Ei as [engines [rs [Hs [H0 [_ [Hp [Hr _]]]]]]].
    split; [|split].
    + destruct (regexp.FindAllStringSubmatch storesRE (Stores ctx) (-1));
        [discriminate|]. eapply scanned_cons_hasStoreSpec, Hsc.
    + intros store Hin Hz. apply Init_stores_engines in Hs.
      destruct Hs as [engines' [_ HF]].
      destruct (@Forall2_In_l _ _ _ _ _ _ HF Hin) as [e [f [a [l [t [-> He]]]]]].
      cbn [nth] in Hz.
      rewrite (initEngine_ext (set_Engines ctx []) ctx a l eq_refl) in He.
      congruence.
    + destruct rs as [|r rs]; [discriminate|]. now exists r, rs.
  - intros [Hhas [Hz [r [rs Hp]]]]. unfold Init, Init_storeSpecs.
    destruct (regexp.FindAllStringSubmatch storesRE (Stores ctx) (-1))
      as [|store specs] eqn:Ef.
    { exfalso. now apply (scanned_nil_iff Hsc). }
    cbn [length Nat.eqb].
    destruct (Init_stores (set_Engines ctx []) (store :: specs))
      as [c1 [e|]] eqn:Es.
    { exfalso. apply (Init_stores_error_In H4) in Es.
      destruct Es as [st [Hin [_ Hi]]]. apply (Hz st Hin).
      rewrite <- Hi. now apply initEngine_ext. }
    apply (@Init_stores_ext _ (set_Engines ctx []) (set_Engines ctx []) _ _
             eq_refl) in Es.
    destruct Es as [engines [-> _]].
    rewrite (@parseGossipBootstrapResolvers_ext _ ctx) by reflexivity.
    now rewrite Hp.
Qed.

End Server.

(** C6: every non-empty token with the prefix self:// is resolved as
    [util.EnsureHost] of the bind address, whatever follows the prefix, and
    [util.EnsureHost] puts the local host in front of an address that has
    only a port.  With the bind address ":26257" the list "self://" resolves
    to the descriptor of the local host on port 26257. *)
Theorem self_token_is_own_address (Resolver Client : Type)
    (NewResolver : gostring -> Resolver + gostring) (localHost : gostring)
    (ctx : Context Resolver Client) :
  parseGossipBootstrapResolvers NewResolver (util.EnsureHost localHost) ctx
  = resolveAll NewResolver
      (map (resolvedAddress (util.EnsureHost localHost) ctx)
           (filter (fun t => negb (length t =? 0))
                   (strings.Split (GossipBootstrap ctx) ","%char))) /\
  (forall token,
      strings.HasPrefix token "self://" = true ->
      resolvedAddress (util.EnsureHost localHost) ctx token
      = util.EnsureHost localHost (Addr ctx)) /\
  (forall port : gostring,
      util.EnsureHost localHost (":"%char :: port)
      = localHost ++ ":"%char :: port) /\
  (Addr ctx = ":26257" -> GossipBootstrap ctx = "self://" ->
   parseGossipBootstrapResolvers NewResolver (util.EnsureHost localHost) ctx
   = resolveAll NewResolver [localHost ++ ":26257"]).
Proof.
  split; [apply parseGossipBootstrapResolvers_resolveAll|].
  split; [intros token H; unfold resolvedAddress; now rewrite H|].
  split; [reflexivity|].
  intros HA HG. rewrite parseGossipBootstrapResolvers_resolveAll, HG.
  cbn. unfold resolvedAddress. cbn. now rewrite HA.
Qed.

(** ** The theorems at work in the sample world *)

Local Abbreviation sampleContext :=
  (flagsContext sample.Resolver sample.Client).
Local Abbreviation sampleInit :=
  (Init sample.NewResolver (util.EnsureHost sample.localHost)).
Local Abbreviation sampleParse :=
  (parseGossipBootstrapResolvers sample.NewResolver
     (util.EnsureHost sample.localHost)).

(** C1 at the stores "hdd:7200rpm=/mnt/hda1,mem=1073741824": two matches,
    two engines. *)
Lemma Init_engines_from_matches_witness :
  Init_storeSpecs
    (sampleContext ":26257" "hdd:7200rpm=/mnt/hda1,mem=1073741824" ""
                   "self://")
  = (set_Engines
       (sampleContext ":26257" "hdd:7200rpm=/mnt/hda1,mem=1073741824" ""
                      "self://")
       [engine.RocksDB {| proto.Attrs := ["hdd"; "7200rpm"] |} "/mnt/hda1"
                       1073741824;
        engine.InMem {| proto.Attrs := ["mem"] |} 1073741824],
     None) /\
  length [engine.RocksDB {| proto.Attrs := ["hdd"; "7200rpm"] |} "/mnt/hda1"
                         1073741824;
          engine.InMem {| proto.Attrs := ["mem"] |} 1073741824]
  = length (regexp.FindAllStringSubmatch storesRE
              "hdd:7200rpm=/mnt/hda1,mem=1073741824" (-1)).
Proof.
  split; [vm_compute; reflexivity|].
  exact (proj1 (@Init_engines_from_matches
                  _ sample.NewResolver (util.EnsureHost sample.localHost) _
                  (sampleContext ":26257"
                     "hdd:7200rpm=/mnt/hda1,mem=1073741824" "" "self://")
                  (set_Engines
                     (sampleContext ":26257"
                        "hdd:7200rpm=/mnt/hda1,mem=1073741824" "" "self://")
                     [engine.RocksDB {| proto.Attrs := ["hdd"; "7200rpm"] |}
                                     "/mnt/hda1" 1073741824;
                      engine.InMem {| proto.Attrs := ["mem"] |} 1073741824])
                  ltac:(vm_compute; reflexivity))).
Defined.



(** C4 at the bootstrap list "node1:26257,,bad", whose last token does not
    resolve. *)
Lemma gossip_bootstrap_all_or_nothing_witness :
  In "bad" (strings.Split "node1:26257,,bad" ","%char) /\
  sample.NewResolver "bad" = inr "bad" /\
  exists err,
    sampleParse (sampleContext ":26257" "mem=1" "" "node1:26257,,bad")
    = ([], Some err).
Proof.
  split; [vm_compute; auto|]. split; [reflexivity|].
  apply (proj1 (gossip_bootstrap_all_or_nothing
                  sample.NewResolver (util.EnsureHost sample.localHost)
                  (sampleContext ":26257" "mem=1" "" "node1:26257,,bad"))
               "bad" "bad").
  - vm_compute. auto.
  - discriminate.
  - vm_compute. reflexivity.
Defined.

(** C6 at the bind address ":26257" and the bootstrap list "self://". *)
Lemma self_token_is_own_address_witness :
  sampleParse (sampleContext ":26257" "mem=1" "" "self://")
  = (["127.0.0.1:26257"], None).
Proof.
  rewrite (proj2 (proj2 (proj2 (@self_token_is_own_address
                                  _ _ sample.NewResolver sample.localHost
                                  (sampleContext ":26257" "mem=1" ""
                                                 "self://"))))
                 eq_refl eq_refl).
  vm_compute. reflexivity.
Defined.


(** C8 at a valid configuration: the second [Init] gives what the first
    gave. *)
Lemma Init_twice_same_output_witness :
  snd (sampleInit
         (sampleContext ":26257" "hdd:7200rpm=/mnt/hda1,mem=1073741824"
                        "us-east:rack1" "self://,node2:26257")) = None /\
  Engines
    (fst (sampleInit
            (fst (sampleInit
                    (sampleContext ":26257"
                                   "hdd:7200rpm=/mnt/hda1,mem=1073741824"
                                   "us-east:rack1" "self://,node2:26257")))))
  = [engine.RocksDB {| proto.Attrs := ["hdd"; "7200rpm"] |} "/mnt/hda1"
                    1073741824;
     engine.InMem {| proto.Attrs := ["mem"] |} 1073741824].
Proof.
  split; [vm_compute; reflexivity|].
  rewrite (proj1 (proj2 (@Init_twice_same_output
                           _ sample.NewResolver (util.EnsureHost sample.localHost) _
                           (sampleContext ":26257"
                              "hdd:7200rpm=/mnt/hda1,mem=1073741824"
                              "us-east:rack1" "self://,node2:26257")
                           (fst (sampleInit
                                   (sampleContext ":26257"
                                      "hdd:7200rpm=/mnt/hda1,mem=1073741824"
                                      "us-east:rack1" "self://,node2:26257")))
                           ltac:(vm_compute; reflexivity)))).
  vm_compute. reflexivity.
Defined.

(** C10 at the stores "mem=0", where [Init] fails. *)
Lemma Init_error_keeps_resolvers_witness :
  snd (sampleInit (sampleContext ":26257" "mem=0" "" "self://"))
  = Some (ErrUnableToInitEngine "mem=0" ErrZeroCapacity) /\
  GossipBootstrapResolvers
    (fst (sampleInit (sampleContext ":26257" "mem=0" "" "self://")))
  = [].
Proof.
  split; [vm_compute; reflexivity|].
  apply (@Init_error_keeps_resolvers
           _ sample.NewResolver (util.EnsureHost sample.localHost) _
           (sampleContext ":26257" "mem=0" "" "self://")
           (fst (sampleInit (sampleContext ":26257" "mem=0" "" "self://")))
           (ErrUnableToInitEngine "mem=0" ErrZeroCapacity)).
  vm_compute. reflexivity.
Defined.

(** ** Further runs in the sample world *)

(** "mem=0" is refused, "mem=1073741824" gives an in-memory engine of that
    capacity. *)
Example initEngine_mem_examples :
  initEngine (sampleContext ":8080" "" "" "") "mem" "0" = inr ErrZeroCapacity /\
  initEngine (sampleContext ":8080" "" "" "") "mem" "1073741824"
  = inl (engine.InMem {| proto.Attrs := ["mem"] |} 1073741824).
Proof. split; reflexivity. Qed.

(** "hdd:7200rpm=/mnt/hda1,ssd=/mnt/ssd01" gives two disk-backed engines. *)
Example Init_two_disk_engines :
  Engines (fst (Init_storeSpecs
                  (sampleContext ":8080"
                     "hdd:7200rpm=/mnt/hda1,ssd=/mnt/ssd01" "" "")))
  = [engine.RocksDB {| proto.Attrs := ["hdd"; "7200rpm"] |} "/mnt/hda1"
                    1073741824;
     engine.RocksDB {| proto.Attrs := ["ssd"] |} "/mnt/ssd01" 1073741824].
Proof. vm_compute. reflexivity. Qed.

(** A failed [Init] can leave [Engines] reset and partly filled, and
    [NodeAttributes] overwritten, while the resolvers stay. *)
Example Init_error_partial_engines :
  sampleInit (set_Engines (sampleContext ":26257" "a=1,b=0" "x" "self://")
                          [engine.InMem {| proto.Attrs := ["old"] |} 5])
  = (set_Engines (sampleContext ":26257" "a=1,b=0" "x" "self://")
                 [engine.InMem {| proto.Attrs := ["a"] |} 1],
     Some (ErrUnableToInitEngine "b=0" ErrZeroCapacity)).
Proof. vm_compute. reflexivity. Qed.

Example Init_error_overwrites_attributes :
  snd (sampleInit (sampleContext ":26257" "a=1" "x" ""))
  = Some ErrNoGossipAddresses /\
  NodeAttributes (fst (sampleInit (sampleContext ":26257" "a=1" "x" "")))
  = {| proto.Attrs := ["x"] |} /\
  NodeAttributes (sampleContext ":26257" "a=1" "x" "")
  = {| proto.Attrs := [] |}.
Proof. repeat split; vm_compute; reflexivity. Qed.

(** The pattern lets attributes hold a ',' and locations an '=', and passes
    over what it cannot match. *)
Example storesRE_examples :
  regexp.FindAllStringSubmatch storesRE "=a=b=c,,x=,y=1" (-1)
  = [["a=b=c,"; "a"; "b=c"; ","]; [",y=1"; ",y"; "1"; ""]] /\
  regexp.FindAllStringSubmatch storesRE "" (-1) = [] /\
  regexp.FindAllStringSubmatch storesRE "ssd" (-1) = [].
Proof. repeat split; vm_compute; reflexivity. Qed.

(** ** The further properties at work in the sample world *)

(** X2 at the location "1073741824". *)
Lemma initEngine_in_memory_capacity_witness :
  initEngine (sampleContext ":8080" "" "" "") "mem:fast" "1073741824"
  = inl (engine.InMem {| proto.Attrs := ["mem"; "fast"] |} 1073741824).
Proof.
  apply (@initEngine_in_memory_capacity _ _ (sampleContext ":8080" "" "" "")
           "mem:fast" "1073741824" 1073741824).
  - vm_compute. reflexivity.
  - change (2 ^ 63)%Z with 9223372036854775808%Z. lia.
Defined.

(** X4 at the stores "a=1,b=0,c=2": the engine of "a=1" stays, "c=2" is
    not reached. *)
Lemma Init_stops_at_first_failing_store_witness :
  sampleInit (sampleContext ":26257" "a=1,b=0,c=2" "" "self://")
  = (set_Engines (sampleContext ":26257" "a=1,b=0,c=2" "" "self://")
                 [engine.InMem {| proto.Attrs := ["a"] |} 1],
     Some (ErrUnableToInitEngine "b=0," ErrZeroCapacity)).
Proof.
  apply (@Init_stops_at_first_failing_store
           _ sample.NewResolver (util.EnsureHost sample.localHost) _
           (sampleContext ":26257" "a=1,b=0,c=2" "" "self://")
           [["a=1,"; "a"; "1"; ","]] [["c=2"; "c"; "2"; ""]]
           [engine.InMem {| proto.Attrs := ["a"] |} 1]
           "b=0," "b" "0" "," ErrZeroCapacity).
  - vm_compute. reflexivity.
  - constructor; [|constructor]. exists "a=1,", "a", "1", ",".
    split; reflexivity.
  - reflexivity.
Defined.

(** X5 at the stores "mem=0". *)
Lemma Init_error_kinds_witness :
  snd (sampleInit (sampleContext ":26257" "mem=0" "" "self://"))
  = Some (ErrUnableToInitEngine "mem=0" ErrZeroCapacity) /\
  exists store,
    In store (regexp.FindAllStringSubmatch storesRE "mem=0" (-1)) /\
    nth 0 store [] = "mem=0" /\
    initEngine (sampleContext ":26257" "mem=0" "" "self://")
               (nth 1 store []) (nth 2 store [])
    = inr ErrZeroCapacity.
Proof.
  split; [vm_compute; reflexivity|].
  destruct (@Init_error_kinds
              _ sample.NewResolver (util.EnsureHost sample.localHost) _
              (sampleContext ":26257" "mem=0" "" "self://")
              (ErrUnableToInitEngine "mem=0" ErrZeroCapacity)
              ltac:(vm_compute; reflexivity))
    as [[H _]|[[store [Hin [He Hi]]]|[[token [msg [_ [_ [_ H]]]]]|[H _]]]];
    try discriminate.
  exists store. split; [exact Hin|]. split; [|exact Hi].
  now injection He.
Defined.

(** X8 at two contexts that differ in the engines they hold. *)
Lemma Init_reads_configuration_only_witness :
  snd (sampleInit (sampleContext ":26257" "mem=7" "rack1" "self://"))
  = snd (sampleInit
           (set_Engines (sampleContext ":26257" "mem=7" "rack1" "self://")
                        [engine.InMem {| proto.Attrs := ["old"] |} 5])).
Proof.
  apply (@Init_reads_configuration_only
           _ sample.NewResolver (util.EnsureHost sample.localHost) _
           (sampleContext ":26257" "mem=7" "rack1" "self://")
           (set_Engines (sampleContext ":26257" "mem=7" "rack1" "self://")
                        [engine.InMem {| proto.Attrs := ["old"] |} 5])).
  repeat split.
Defined.

(** X9 at the context of [NewContext], whose [Stores] is empty. *)
Lemma Init_without_match_leaves_context_witness :
  sampleInit (NewContext sample.Resolver sample.Client)
  = (NewContext sample.Resolver sample.Client, Some (ErrInvalidEngines "")).
Proof.
  apply (@Init_without_match_leaves_context
           _ sample.NewResolver (util.EnsureHost sample.localHost) _
           (NewContext sample.Resolver sample.Client)).
  intros [gap [a [l [post [H _]]]]]. simpl in H.
  destruct gap; [destruct a|]; discriminate.
Defined.

(** X10 at a valid configuration. *)
Lemma Init_success_postconditions_witness :
  NodeAttributes
    (fst (sampleInit (sampleContext ":26257" "mem=7" "us-east:rack1"
                                    "self://")))
  = {| proto.Attrs := ["us-east"; "rack1"] |} /\
  GossipBootstrapResolvers
    (fst (sampleInit (sampleContext ":26257" "mem=7" "us-east:rack1"
                                    "self://")))
  <> [].
Proof.
  pose proof (@Init_success_postconditions
                _ sample.NewResolver (util.EnsureHost sample.localHost) _
                (sampleContext ":26257" "mem=7" "us-east:rack1" "self://")
                (fst (sampleInit
                        (sampleContext ":26257" "mem=7" "us-east:rack1"
                                       "self://")))
                ltac:(vm_compute; reflexivity))
    as [_ [Hr [Ha _]]].
  split; [rewrite Ha; vm_compute; reflexivity|exact Hr].
Defined.

(** X11 at the attributes of the specification's example. *)
Lemma parseAttributes_of_Join_witness :
  proto.Attrs
    (parseAttributes (strings.Join ["ssd"; "7200rpm"; "ssd"] ":"%char))
  = ["ssd"; "7200rpm"; "ssd"].
Proof.
  apply (@parseAttributes_of_Join ["ssd"; "7200rpm"; "ssd"]).
  repeat constructor; try discriminate; cbn; intuition discriminate.
Defined.

(** X14 at the bootstrap list "self://,,node2:26257". *)
Lemma parseGossipBootstrapResolvers_one_per_token_witness :
  Forall2 (fun token r =>
             sample.NewResolver
               (resolvedAddress (util.EnsureHost sample.localHost)
                  (sampleContext ":26257" "mem=1" "" "self://,,node2:26257")
                  token)
             = inl r)
          ["self://"; "node2:26257"] ["127.0.0.1:26257"; "node2:26257"].
Proof.
  apply (@parseGossipBootstrapResolvers_one_per_token
           _ sample.NewResolver (util.EnsureHost sample.localHost) _
           (sampleContext ":26257" "mem=1" "" "self://,,node2:26257")
           ["127.0.0.1:26257"; "node2:26257"]).
  vm_compute. reflexivity.
Defined.

(** X15 at the bootstrap list "node1:26257,,bad,worse": the error is the
    one of "bad". *)
Lemma parseGossipBootstrapResolvers_first_error_witness :
  sampleParse (sampleContext ":26257" "mem=1" "" "node1:26257,,bad,worse")
  = ([], Some (ErrCollaborator "bad")).
Proof.
  apply (@parseGossipBootstrapResolvers_first_error
           _ sample.NewResolver (util.EnsureHost sample.localHost) _
           (sampleContext ":26257" "mem=1" "" "node1:26257,,bad,worse")
           ["node1:26257"; ""] ["worse"] "bad" "bad").
  - vm_compute. reflexivity.
  - constructor; [right; now exists "node1:26257"|].
    constructor; [now left|constructor].
  - discriminate.
  - reflexivity.
Defined.

(** X16 in the sample world, where the third attempt is the first to
    succeed: five calls attempt three constructions. *)
Lemma GetHTTPClient_constructs_until_success_witness :
  GetHTTPClient_calls sample.NewHTTPClient 5 (sampleContext ":8080" "" "" "") 0
  = (set_httpClient (sampleContext ":8080" "" "" "") (Some "certs"), 3).
Proof.
  apply (@GetHTTPClient_constructs_until_success
           _ _ sample.NewHTTPClient (sampleContext ":8080" "" "" "")
           2 "certs" 0).
  - reflexivity.
  - intros j Hj. destruct j as [|[|j]]; [reflexivity|reflexivity|lia].
  - reflexivity.
Defined.

(** X17 with a construction that returns a client and an error. *)
Lemma GetHTTPClient_caches_client_with_error_witness :
  GetHTTPClient (fun _ certs => (Some certs, Some "expired"))
                (sampleContext ":8080" "" "" "") 0
  = ((Some "certs", Some (ErrCollaborator "expired")),
     set_httpClient (sampleContext ":8080" "" "" "") (Some "certs"), 1).
Proof.
  apply (@GetHTTPClient_caches_client_with_error
           sample.Resolver sample.Client
           (fun _ certs => (Some certs, Some "expired"))
           (sampleContext ":8080" "" "" "") 0 "certs" "expired");
    reflexivity.
Defined.

(** X19 at the stores of the comment on [Stores]; the last location shows an
    '=' inside a location. *)
Lemma storesRE_finds_the_entries_witness :
  regexp.FindAllStringSubmatch storesRE
    "hdd:7200rpm=/mnt/hda1,ssd=/mnt/ssd01,mem=1073741824,ssd=/mnt/a=b" (-1)
  = [["hdd:7200rpm=/mnt/hda1,"; "hdd:7200rpm"; "/mnt/hda1"; ","];
     ["ssd=/mnt/ssd01,"; "ssd"; "/mnt/ssd01"; ","];
     ["mem=1073741824,"; "mem"; "1073741824"; ","];
     ["ssd=/mnt/a=b"; "ssd"; "/mnt/a=b"; ""]].
Proof.
  apply (@storesRE_finds_the_entries
           [("hdd:7200rpm", "/mnt/hda1"); ("ssd", "/mnt/ssd01");
            ("mem", "1073741824"); ("ssd", "/mnt/a=b")]).
  repeat constructor; try discriminate; cbn; intuition discriminate.
Defined.

(** X20 at the stores "hdd:7200rpm=/mnt/hda1,mem=1073741824", on a context
    that holds an engine of an earlier run. *)
Lemma Init_storeSpecs_on_entries_witness :
  Init_storeSpecs
    (set_Engines
       (sampleContext ":26257" "hdd:7200rpm=/mnt/hda1,mem=1073741824" "" "")
       [engine.InMem {| proto.Attrs := ["old"] |} 5])
  = (set_Engines
       (set_Engines
          (sampleContext ":26257" "hdd:7200rpm=/mnt/hda1,mem=1073741824" ""
                         "")
          [engine.InMem {| proto.Attrs := ["old"] |} 5])
       [engine.RocksDB {| proto.Attrs := ["hdd"; "7200rpm"] |} "/mnt/hda1"
                       1073741824;
        engine.InMem {| proto.Attrs := ["mem"] |} 1073741824],
     None).
Proof.
  apply (@Init_storeSpecs_on_entries
           _ _
           (set_Engines
              (sampleContext ":26257" "hdd:7200rpm=/mnt/hda1,mem=1073741824"
                             "" "")
              [engine.InMem {| proto.Attrs := ["old"] |} 5])
           [("hdd:7200rpm", "/mnt/hda1"); ("mem", "1073741824")]).
  - reflexivity.
  - discriminate.
  - repeat constructor; try discriminate; cbn; intuition discriminate.
  - repeat constructor.
Defined.
